(** * BEAR AI front end: store, message dispatch, PII guard, status bands

    A shallow embedding of the TypeScript sources

      - [BEAR-LLM-assistant/src/stores/appStore.ts], the zustand store;
      - [BEAR-LLM-assistant/src/App.tsx], the chat page with
        [handleSendMessage] and [handleNewChat], and the model menu
        [ModelSelector] with [handleModelSelect];
      - the [PIIGuard] component and its five detection patterns;
      - [BEAR-LLM-assistant/src/components/StatusBar.tsx], with
        [getStatusColor];

    followed by the properties checked against them.

    Conventions.  A JavaScript string is a sequence of UTF-16 code units
    and is modelled as [list N]; [Date.now()] readings and message
    timestamps are integers ([Z]); an [await]ed backend call is a value of
    a sum type (resolved or rejected); a zustand [set] with a partial
    object replaces the named fields and keeps the others. *)

From Stdlib Require Import List ZArith NArith String Ascii Bool Lia Sorted.
From Stdlib Require Import QArith Lqa Qpower DecimalString DecimalZ.
From Stdlib Require Import PrimFloat FloatOps FloatAxioms SpecFloat.
Import ListNotations.

Local Open Scope list_scope.

(* ================================================================== *)
(** ** JavaScript strings *)

Definition code_unit := N.
Definition jsstring := list code_unit.

(** An ASCII literal of the source as a sequence of code units. *)
Definition js (s : string) : jsstring :=
  map N_of_ascii (list_ascii_of_string s).

Definition jsstring_eqb (a b : jsstring) : bool :=
  if list_eq_dec N.eq_dec a b then true else false.

(** [Number.prototype.toString] on an integer (below 1e21 in magnitude,
    where JavaScript prints plain decimal digits). *)
Definition toString (z : Z) : jsstring :=
  js (NilZero.string_of_int (Z.to_int z)).

(** [WhiteSpace] and [LineTerminator] code units: what [\s] matches and
    what [String.prototype.trim] strips. *)
Definition is_space (c : code_unit) : bool :=
  ((9 <=? c) && (c <=? 13) || (c =? 32) || (c =? 160) || (c =? 5760)
   || (8192 <=? c) && (c <=? 8202) || (c =? 8232) || (c =? 8233)
   || (c =? 8239) || (c =? 8287) || (c =? 12288) || (c =? 65279))%N.

Fixpoint trimStart (s : jsstring) : jsstring :=
  match s with
  | c :: s' => if is_space c then trimStart s' else s
  | [] => []
  end.

Definition trimEnd (s : jsstring) : jsstring := rev (trimStart (rev s)).

Definition trim (s : jsstring) : jsstring := trimEnd (trimStart s).

(** Whether a string begins, or ends, with a white-space code unit. *)
Definition startsWithSpace (s : jsstring) : bool :=
  match s with
  | c :: _ => is_space c
  | [] => false
  end.

Definition endsWithSpace (s : jsstring) : bool := startsWithSpace (rev s).

(** Substring test, as [String.prototype.includes]. *)
Fixpoint startsWith (w s : jsstring) : bool :=
  match w, s with
  | [], _ => true
  | a :: w', b :: s' => (a =? b)%N && startsWith w' s'
  | _ :: _, [] => false
  end.

Fixpoint includes (s w : jsstring) : bool :=
  startsWith w s || match s with [] => false | _ :: s' => includes s' w end.

(* ================================================================== *)
(** ** The store ([appStore.ts]) *)

Inductive Role := user | assistant | system.

Module Message.
Record t := mk { role : Role; content : jsstring; timestamp : Z }.
End Message.

(** The scalar values a [metadata] object (typed [any]) may hold. *)
Inductive scalar :=
| SString (s : jsstring)
| SNumber (q : Q)
| SBool (b : bool)
| SNull.

Module Document.
Record t := mk {
  id : jsstring;
  filename : jsstring;
  content : jsstring;
  pii_removed : bool;
  metadata : list (jsstring * scalar)
}.
End Document.

Module Conversation.
Record t := mk {
  id : jsstring;
  title : jsstring;
  timestamp : Z;
  messages : list Message.t
}.
End Conversation.

(** What [StatusBar] reads of the [systemHealth] object. *)
Module SystemStatus.
Record t := mk {
  cpu_usage : Q;
  memory_usage : Q;
  gpu_usage : option Q;
  temperature : option Q;
  is_safe : bool
}.
End SystemStatus.

Record AppStore := mkStore {
  messages : list Message.t;
  documents : list Document.t;
  selectedModel : jsstring;
  availableModels : list jsstring;
  isProcessing : bool;
  systemHealth : option SystemStatus.t;
  conversations : list Conversation.t;
  currentConversationId : jsstring
}.

(** The state [create] builds; [now] is the [Date.now()] reading taken
    for the bootstrap conversation. *)
Definition initialStore (now : Z) : AppStore :=
  {| messages := [];
     documents := [];
     selectedModel := js "llama2-7b";
     availableModels := [js "llama2-7b"; js "mistral-7b"; js "phi-2"];
     isProcessing := false;
     systemHealth := None;
     conversations :=
       [ {| Conversation.id := js "1";
            Conversation.title := js "New Chat";
            Conversation.timestamp := now;
            Conversation.messages := [] |} ];
     currentConversationId := js "1" |}.

Definition addMessage (message : Message.t) (state : AppStore) : AppStore :=
  {| messages := messages state ++ [message];
     documents := documents state;
     selectedModel := selectedModel state;
     availableModels := availableModels state;
     isProcessing := isProcessing state;
     systemHealth := systemHealth state;
     conversations := conversations state;
     currentConversationId := currentConversationId state |}.

Definition clearMessages (state : AppStore) : AppStore :=
  {| messages := [];
     documents := documents state;
     selectedModel := selectedModel state;
     availableModels := availableModels state;
     isProcessing := isProcessing state;
     systemHealth := systemHealth state;
     conversations := conversations state;
     currentConversationId := currentConversationId state |}.

Definition addDocument (document : Document.t) (state : AppStore) : AppStore :=
  {| messages := messages state;
     documents := documents state ++ [document];
     selectedModel := selectedModel state;
     availableModels := availableModels state;
     isProcessing := isProcessing state;
     systemHealth := systemHealth state;
     conversations := conversations state;
     currentConversationId := currentConversationId state |}.

Definition setSelectedModel (model : jsstring) (state : AppStore) : AppStore :=
  {| messages := messages state;
     documents := documents state;
     selectedModel := model;
     availableModels := availableModels state;
     isProcessing := isProcessing state;
     systemHealth := systemHealth state;
     conversations := conversations state;
     currentConversationId := currentConversationId state |}.

Definition setAvailableModels (models : list jsstring) (state : AppStore)
  : AppStore :=
  {| messages := messages state;
     documents := documents state;
     selectedModel := selectedModel state;
     availableModels := models;
     isProcessing := isProcessing state;
     systemHealth := systemHealth state;
     conversations := conversations state;
     currentConversationId := currentConversationId state |}.

Definition setProcessing (processing : bool) (state : AppStore) : AppStore :=
  {| messages := messages state;
     documents := documents state;
     selectedModel := selectedModel state;
     availableModels := availableModels state;
     isProcessing := processing;
     systemHealth := systemHealth state;
     conversations := conversations state;
     currentConversationId := currentConversationId state |}.

Definition setSystemHealth (health : option SystemStatus.t) (state : AppStore)
  : AppStore :=
  {| messages := messages state;
     documents := documents state;
     selectedModel := selectedModel state;
     availableModels := availableModels state;
     isProcessing := isProcessing state;
     systemHealth := health;
     conversations := conversations state;
     currentConversationId := currentConversationId state |}.

Definition addConversation (conversation : Conversation.t) (state : AppStore)
  : AppStore :=
  {| messages := messages state;
     documents := documents state;
     selectedModel := selectedModel state;
     availableModels := availableModels state;
     isProcessing := isProcessing state;
     systemHealth := systemHealth state;
     conversations := conversations state ++ [conversation];
     currentConversationId := currentConversationId state |}.

Definition setCurrentConversation (id : jsstring) (state : AppStore)
  : AppStore :=
  {| messages := messages state;
     documents := documents state;
     selectedModel := selectedModel state;
     availableModels := availableModels state;
     isProcessing := isProcessing state;
     systemHealth := systemHealth state;
     conversations := conversations state;
     currentConversationId := id |}.

(** The store's mutation interface as a labelled transition system. *)
Inductive action :=
| AddMessage (message : Message.t)
| ClearMessages
| AddDocument (document : Document.t)
| SetSelectedModel (model : jsstring)
| SetAvailableModels (models : list jsstring)
| SetProcessing (processing : bool)
| SetSystemHealth (health : option SystemStatus.t)
| AddConversation (conversation : Conversation.t)
| SetCurrentConversation (id : jsstring).

Definition step (a : action) (state : AppStore) : AppStore :=
  match a with
  | AddMessage m => addMessage m state
  | ClearMessages => clearMessages state
  | AddDocument d => addDocument d state
  | SetSelectedModel m => setSelectedModel m state
  | SetAvailableModels ms => setAvailableModels ms state
  | SetProcessing p => setProcessing p state
  | SetSystemHealth h => setSystemHealth h state
  | AddConversation c => addConversation c state
  | SetCurrentConversation i => setCurrentConversation i state
  end.

(** Run a sequence of store calls, first call first. *)
Definition run (actions : list action) (state : AppStore) : AppStore :=
  fold_left (fun s a => step a s) actions state.

(** The conversations a pointer value resolves to. *)
Definition resolve (id : jsstring) (state : AppStore) : list Conversation.t :=
  filter (fun c => jsstring_eqb (Conversation.id c) id) (conversations state).

Definition conversationIds (state : AppStore) : list jsstring :=
  map Conversation.id (conversations state).

(* ================================================================== *)
(** ** The chat page ([App.tsx]) *)

(** The component state the handlers read and write, with the store.
    Theme, sidebar and scroll state only affect rendering. *)
Module App.
Record t := mk {
  message : jsstring;
  isLoading : bool;
  store : AppStore
}.
End App.

(** A call [invoke('send_message', { message, modelName })]. *)
Module Invoke.
Record t := send_message { message : jsstring; modelName : jsstring }.
End Invoke.

(** How the awaited promise settles: [inl response] when it resolves,
    [inr error] when it rejects, [error] standing for [String(error)]. *)
Definition settled := (jsstring + jsstring)%type.

Definition isEmpty (s : jsstring) : bool :=
  match s with [] => true | _ :: _ => false end.

(** [handleSendMessage] up to its [await]: the guard, the user message
    appended at clock reading [now], and the call handed to the backend. *)
Definition handleSendMessage_begin (now : Z) (app : App.t)
  : option (App.t * Invoke.t) :=
  if isEmpty (trim (App.message app)) || App.isLoading app then None
  else
    let userMessage := trim (App.message app) in
    Some ({| App.message := [];
             App.isLoading := true;
             App.store :=
               addMessage {| Message.role := user;
                             Message.content := userMessage;
                             Message.timestamp := now |} (App.store app) |},
          {| Invoke.message := userMessage;
             Invoke.modelName := selectedModel (App.store app) |}).

(** [handleSendMessage] from the settled promise on: the [try] body's
    second half or the [catch] block, then [finally]. *)
Definition handleSendMessage_settle (result : settled) (now : Z) (app : App.t)
  : App.t :=
  {| App.message := App.message app;
     App.isLoading := false;
     App.store :=
       match result with
       | inl response =>
           addMessage {| Message.role := assistant;
                         Message.content := response;
                         Message.timestamp := now |} (App.store app)
       | inr error =>
           addMessage {| Message.role := system;
                         Message.content := js "Error: " ++ error;
                         Message.timestamp := now |} (App.store app)
       end |}.

(** One whole run of [handleSendMessage] with no other handler running
    during the [await]: the final state and the calls the backend saw. *)
Definition handleSendMessage (backend : Invoke.t -> settled) (t1 t2 : Z)
  (app : App.t) : App.t * list Invoke.t :=
  match handleSendMessage_begin t1 app with
  | None => (app, [])
  | Some (app1, call) =>
      (handleSendMessage_settle (backend call) t2 app1, [call])
  end.

(** [handleNewChat]; [t_id] and [t_stamp] are its two [Date.now()]
    readings, in source order. *)
Definition handleNewChat (t_id t_stamp : Z) (app : App.t) : App.t :=
  let newConversation :=
    {| Conversation.id := toString t_id;
       Conversation.title := js "New Chat";
       Conversation.timestamp := t_stamp;
       Conversation.messages := [] |} in
  {| App.message := App.message app;
     App.isLoading := App.isLoading app;
     App.store :=
       clearMessages
         (setCurrentConversation (Conversation.id newConversation)
            (addConversation newConversation (App.store app))) |}.

(** The click handler of the [n]-th row of the conversation list. *)
Definition handleConversationClick (n : nat) (app : App.t) : App.t :=
  match nth_error (conversations (App.store app)) n with
  | Some conv =>
      {| App.message := App.message app;
         App.isLoading := App.isLoading app;
         App.store :=
           setCurrentConversation (Conversation.id conv) (App.store app) |}
  | None => app
  end.

(* ================================================================== *)
(** ** The model menu ([ModelSelector]) *)

Module ModelSelector.
Record t := mk { isOpen : bool; downloading : option jsstring }.
End ModelSelector.

(** The component's handlers act on its own state and on the store. *)
Definition handleModelSelect (model : jsstring)
  (st : ModelSelector.t * AppStore) : ModelSelector.t * AppStore :=
  ({| ModelSelector.isOpen := false;
      ModelSelector.downloading := ModelSelector.downloading (fst st) |},
   setSelectedModel model (snd st)).

(** [handleDownloadModel] up to its [await] ... *)
Definition handleDownloadModel_begin (model : jsstring)
  (st : ModelSelector.t * AppStore) : ModelSelector.t * AppStore :=
  ({| ModelSelector.isOpen := ModelSelector.isOpen (fst st);
      ModelSelector.downloading := Some model |},
   snd st).

(** ... and after it: the [try] body and the [catch] block both reset
    [downloading], whether the download succeeded ([ok]) or not. *)
Definition handleDownloadModel_settle (ok : bool)
  (st : ModelSelector.t * AppStore) : ModelSelector.t * AppStore :=
  ({| ModelSelector.isOpen := ModelSelector.isOpen (fst st);
      ModelSelector.downloading := None |},
   snd st).

(** The icon a menu row shows for [model]. *)
Inductive rowIcon := CheckCircle | DownloadPulse | DownloadButton.

Definition rowIconOf (model : jsstring) (st : ModelSelector.t * AppStore)
  : rowIcon :=
  if jsstring_eqb (selectedModel (snd st)) model then CheckCircle
  else match ModelSelector.downloading (fst st) with
       | Some d => if jsstring_eqb d model then DownloadPulse
                   else DownloadButton
       | None => DownloadButton
       end.

(* ================================================================== *)
(** ** Regular expressions, as far as [PIIGuard] uses them

    The five patterns are built from character classes, the word-boundary
    assertion, concatenation, [?], counted repetition, and unbounded
    repetition of a character class.  [RegExp.prototype.test] on a
    pattern without flags asks whether some match exists at some start
    position, so the matcher explores every alternative: its answer does
    not depend on greediness. *)

Definition is_digit (c : code_unit) : bool := ((48 <=? c) && (c <=? 57))%N.
Definition is_upper (c : code_unit) : bool := ((65 <=? c) && (c <=? 90))%N.
Definition is_lower (c : code_unit) : bool := ((97 <=? c) && (c <=? 122))%N.

(** [\w] *)
Definition is_word (c : code_unit) : bool :=
  is_upper c || is_lower c || is_digit c || (c =? 95)%N.

(** A code unit listed literally in a class. *)
Definition oneOf (chars : string) (c : code_unit) : bool :=
  existsb (N.eqb c) (js chars).

Inductive regex :=
| Eps
| Class (p : code_unit -> bool)
| WordBoundary
| Cat (r1 r2 : regex)
| Opt (r : regex)
| Repeat (n : nat) (r : regex)
| StarClass (p : code_unit -> bool).

Definition seq (rs : list regex) : regex := fold_right Cat Eps rs.
Definition chr (a : ascii) : regex := Class (N.eqb (N_of_ascii a)).
Definition plus (p : code_unit -> bool) : regex := Cat (Class p) (StarClass p).
Definition atLeast (n : nat) (p : code_unit -> bool) : regex :=
  Cat (Repeat n (Class p)) (StarClass p).
Fixpoint upTo (n : nat) (r : regex) : regex :=
  match n with
  | O => Eps
  | S n' => Opt (Cat r (upTo n' r))
  end.
Definition between (lo hi : nat) (r : regex) : regex :=
  Cat (Repeat lo r) (upTo (hi - lo) r).

Definition wordBefore (prev : option code_unit) : bool :=
  match prev with Some c => is_word c | None => false end.

Definition wordAhead (s : jsstring) : bool :=
  match s with c :: _ => is_word c | [] => false end.

(** [matchFrom r prev s k]: can [r] match a prefix of [s] (the code unit
    before [s] being [prev]) so that the continuation [k] accepts what
    follows? *)
Fixpoint matchFrom (r : regex) (prev : option code_unit) (s : jsstring)
  (k : option code_unit -> jsstring -> bool) {struct r} : bool :=
  match r with
  | Eps => k prev s
  | Class p =>
      match s with
      | c :: s' => p c && k (Some c) s'
      | [] => false
      end
  | WordBoundary => xorb (wordBefore prev) (wordAhead s) && k prev s
  | Cat r1 r2 => matchFrom r1 prev s (fun prev' s' => matchFrom r2 prev' s' k)
  | Opt r1 => matchFrom r1 prev s k || k prev s
  | Repeat n r1 =>
      (fix rep (n : nat) (prev : option code_unit) (s : jsstring) : bool :=
         match n with
         | O => k prev s
         | S n' => matchFrom r1 prev s (rep n')
         end) n prev s
  | StarClass p =>
      (fix star (prev : option code_unit) (s : jsstring) : bool :=
         match s with
         | c :: s' => p c && star (Some c) s' || k prev s
         | [] => k prev s
         end) prev s
  end.

Definition accept (_ : option code_unit) (_ : jsstring) : bool := true.

(** Try every start position, left to right. *)
Fixpoint search (r : regex) (prev : option code_unit) (s : jsstring) : bool :=
  matchFrom r prev s accept
  || match s with
     | c :: s' => search r (Some c) s'
     | [] => false
     end.

Definition test (r : regex) (text : jsstring) : bool := search r None text.

(* ================================================================== *)
(** ** The PII guard ([PIIGuard]) *)

Module Pattern.
Record t := mk { regex : regex; type : string }.
End Pattern.

Definition digit : regex := Class is_digit.

(** [/\b\d{3}-\d{2}-\d{4}\b/] *)
Definition ssnRegex : regex :=
  seq [WordBoundary; Repeat 3 digit; chr "-"; Repeat 2 digit; chr "-";
       Repeat 4 digit; WordBoundary].

(** [/\b[A-Za-z0-9._%+-]+@[A-Za-z0-9.-]+\.[A-Z|a-z]{2,}\b/] *)
Definition emailRegex : regex :=
  seq [WordBoundary;
       plus (fun c => is_upper c || is_lower c || is_digit c || oneOf "._%+-" c);
       chr "@";
       plus (fun c => is_upper c || is_lower c || is_digit c || oneOf ".-" c);
       chr ".";
       atLeast 2 (fun c => is_upper c || oneOf "|" c || is_lower c);
       WordBoundary].

(** [[-.\s]] *)
Definition phoneSeparator : regex := Class (fun c => oneOf "-." c || is_space c).

(** [/\b(?:\+?1[-.\s]?)?\(?\d{3}\)?[-.\s]?\d{3}[-.\s]?\d{4}\b/] *)
Definition phoneRegex : regex :=
  seq [WordBoundary;
       Opt (seq [Opt (chr "+"); chr "1"; Opt phoneSeparator]);
       Opt (chr "("); Repeat 3 digit; Opt (chr ")"); Opt phoneSeparator;
       Repeat 3 digit; Opt phoneSeparator; Repeat 4 digit; WordBoundary].

(** [/\b(?:\d{4}[-\s]?){3}\d{4}\b/] *)
Definition creditCardRegex : regex :=
  seq [WordBoundary;
       Repeat 3 (seq [Repeat 4 digit;
                      Opt (Class (fun c => oneOf "-" c || is_space c))]);
       Repeat 4 digit; WordBoundary].

(** [/\b(?:[0-9]{1,3}\.){3}[0-9]{1,3}\b/] *)
Definition ipAddressRegex : regex :=
  seq [WordBoundary;
       Repeat 3 (seq [between 1 3 digit; chr "."]);
       between 1 3 digit; WordBoundary].

Definition patterns : list Pattern.t :=
  [ {| Pattern.regex := ssnRegex; Pattern.type := "SSN" |};
    {| Pattern.regex := emailRegex; Pattern.type := "Email" |};
    {| Pattern.regex := phoneRegex; Pattern.type := "Phone" |};
    {| Pattern.regex := creditCardRegex; Pattern.type := "Credit Card" |};
    {| Pattern.regex := ipAddressRegex; Pattern.type := "IP Address" |} ].

(** The [detected] array the effect builds: one label per pattern that
    tests positive, in the order of [patterns]. *)
Definition detect (text : jsstring) : list string :=
  map Pattern.type
      (filter (fun p => test (Pattern.regex p) text) patterns).

Inductive callback := onPIIDetected | onPIICleared.

(** The effect body: the new [detectedPII] state and the callback fired. *)
Definition PIIGuard_effect (text : jsstring) : list string * callback :=
  let detected := detect text in
  (detected,
   if (0 <? List.length detected)%nat then onPIIDetected else onPIICleared).

(* ================================================================== *)
(** ** Status colours ([StatusBar.tsx])

    Usage figures are JavaScript numbers, that is IEEE binary64 values,
    and are modelled as primitive floats: [<] and [*] are the operations
    of the engine, bit for bit, and the literals [0.6] and [0.8] denote
    the doubles nearest to them, written here in hexadecimal. *)

Definition binary64_0_6 : float := 0x1.3333333333333p-1%float.
Definition binary64_0_8 : float := 0x1.999999999999ap-1%float.

Definition getStatusColor (value threshold : float) : string :=
  if (value <? threshold * binary64_0_6)%float then "text-green-400"
  else if (value <? threshold * binary64_0_8)%float then "text-yellow-400"
  else "text-red-400".

(** The thresholds the four gauges pass to [getStatusColor]. *)
Inductive gauge := CPU | RAM | GPU | Temperature.

Definition thresholdOf (g : gauge) : float :=
  match g with
  | CPU => 85%float
  | RAM => 90%float
  | GPU => 85%float
  | Temperature => 80%float
  end.

(** A field of [systemStatus] as a gauge reads it.  The prop is typed
    [any]: the field holds a number, is missing ([undefined]) or is
    [null].  The comparison [<] converts its operand with ToNumber, which
    takes [undefined] to NaN and [null] to [+0]. *)
Inductive reading := Number (x : float) | Undefined | Null.

Definition toNumber (r : reading) : float :=
  match r with
  | Number x => x
  | Undefined => nan
  | Null => 0%float
  end.

(** The class of a gauge's label; the GPU and temperature gauges are
    rendered only when their field [!== null]. *)
Definition gaugeColor (g : gauge) (r : reading) : option string :=
  match g, r with
  | (GPU | Temperature), Null => None
  | _, _ => Some (getStatusColor (toNumber r) (thresholdOf g))
  end.

(** The real number a binary64 value stands for: none for NaN and the
    infinities, 0 for both zeros, and (+/-) m * 2^e for the finite value
    with mantissa [m] and exponent [e]. *)
Definition SF2Q (f : spec_float) : option Q :=
  match f with
  | S754_zero _ => Some 0
  | S754_finite s m e =>
      Some (inject_Z (if s then Zneg m else Zpos m) * 2 ^ e)
  | _ => None
  end.

Definition exactValue (x : float) : option Q := SF2Q (Prim2SF x).

(* ================================================================== *)
(** ** The page as a transition system

    Every handler of [App.tsx] and of the model menu is an event; an
    asynchronous handler contributes one event per stretch between two
    [await]s, so other handlers may run while a call is pending.
    [handleFileUpload] touches the state only through [addMessage] with a
    system message and [setIsLoading]; these two effects are events of
    their own. *)

Module Page.
Record t := mk { app : App.t; selector : ModelSelector.t }.
End Page.

Definition setMessage (text : jsstring) (app : App.t) : App.t :=
  {| App.message := text;
     App.isLoading := App.isLoading app;
     App.store := App.store app |}.

Definition setIsLoading (loading : bool) (app : App.t) : App.t :=
  {| App.message := App.message app;
     App.isLoading := loading;
     App.store := App.store app |}.

Definition withStore (store : AppStore) (app : App.t) : App.t :=
  {| App.message := App.message app;
     App.isLoading := App.isLoading app;
     App.store := store |}.

Inductive event :=
| Typed (text : jsstring)
| SendBegin (now : Z)
| SendSettle (result : settled) (now : Z)
| NewChat (t_id t_stamp : Z)
| ConversationClick (n : nat)
| UploadNotice (content : jsstring) (now : Z)
| UploadLoading (loading : bool)
| MenuToggle
| ModelsLoaded (models : list jsstring)
| ModelSelect (model : jsstring)
| DownloadBegin (model : jsstring)
| DownloadSettle (ok : bool).

Definition onSelector
  (h : ModelSelector.t * AppStore -> ModelSelector.t * AppStore)
  (page : Page.t) : Page.t :=
  let st := h (Page.selector page, App.store (Page.app page)) in
  {| Page.app := withStore (snd st) (Page.app page);
     Page.selector := fst st |}.

Definition onApp (h : App.t -> App.t) (page : Page.t) : Page.t :=
  {| Page.app := h (Page.app page); Page.selector := Page.selector page |}.

Definition handle (e : event) (page : Page.t) : Page.t :=
  match e with
  | Typed text => onApp (setMessage text) page
  | SendBegin now =>
      onApp (fun app => match handleSendMessage_begin now app with
                        | Some (app1, _) => app1
                        | None => app
                        end) page
  | SendSettle result now => onApp (handleSendMessage_settle result now) page
  | NewChat t_id t_stamp => onApp (handleNewChat t_id t_stamp) page
  | ConversationClick n => onApp (handleConversationClick n) page
  | UploadNotice content now =>
      onApp (fun app =>
               withStore (addMessage {| Message.role := system;
                                        Message.content := content;
                                        Message.timestamp := now |}
                                     (App.store app)) app) page
  | UploadLoading loading => onApp (setIsLoading loading) page
  | MenuToggle =>
      onSelector (fun st =>
                    ({| ModelSelector.isOpen :=
                          negb (ModelSelector.isOpen (fst st));
                        ModelSelector.downloading :=
                          ModelSelector.downloading (fst st) |}, snd st)) page
  | ModelsLoaded models =>
      onSelector (fun st => (fst st, setAvailableModels models (snd st))) page
  | ModelSelect model => onSelector (handleModelSelect model) page
  | DownloadBegin model => onSelector (handleDownloadModel_begin model) page
  | DownloadSettle ok => onSelector (handleDownloadModel_settle ok) page
  end.

Definition runEvents (events : list event) (page : Page.t) : Page.t :=
  fold_left (fun p e => handle e p) events page.

Definition initialPage (now : Z) : Page.t :=
  {| Page.app := {| App.message := [];
                    App.isLoading := false;
                    App.store := initialStore now |};
     Page.selector := {| ModelSelector.isOpen := false;
                         ModelSelector.downloading := None |} |}.

Definition storeOf (page : Page.t) : AppStore := App.store (Page.app page).

(* ================================================================== *)
(** ** Vocabulary of the statements *)

Inductive field :=
| Fmessages | Fdocuments | FselectedModel | FavailableModels
| FisProcessing | FsystemHealth | Fconversations | FcurrentConversationId.

(** [s'] agrees with [s] on every field but (possibly) [f]. *)
Definition unchangedExcept (f : field) (s s' : AppStore) : Prop :=
  (f = Fmessages \/ messages s' = messages s)
  /\ (f = Fdocuments \/ documents s' = documents s)
  /\ (f = FselectedModel \/ selectedModel s' = selectedModel s)
  /\ (f = FavailableModels \/ availableModels s' = availableModels s)
  /\ (f = FisProcessing \/ isProcessing s' = isProcessing s)
  /\ (f = FsystemHealth \/ systemHealth s' = systemHealth s)
  /\ (f = Fconversations \/ conversations s' = conversations s)
  /\ (f = FcurrentConversationId
      \/ currentConversationId s' = currentConversationId s).

(** The message logs, in [s'], of the conversations [s] already had. *)
Definition existingLogs (s s' : AppStore) : list (list Message.t) :=
  map Conversation.messages
      (firstn (List.length (conversations s)) (conversations s')).

Definition timestamps (ms : list Message.t) : list Z :=
  map Message.timestamp ms.

Fixpoint nondecreasing (ts : list Z) : bool :=
  match ts with
  | a :: rest =>
      match rest with
      | b :: _ => (a <=? b)%Z && nondecreasing rest
      | [] => true
      end
  | [] => true
  end.

(** The clock readings the events of a run carry for stamping messages,
    in the order of the run. *)
Definition stampOf (e : event) : list Z :=
  match e with
  | SendBegin now => [now]
  | SendSettle _ now => [now]
  | UploadNotice _ now => [now]
  | _ => []
  end.

Definition stampsOf (events : list event) : list Z := flat_map stampOf events.

(** Three digits, hyphen, two digits, hyphen, four digits. *)
Definition ssnShaped (w : jsstring) : bool :=
  match w with
  | [a; b; c; h1; d; e; h2; f; g; h; i] =>
      forallb is_digit [a; b; c; d; e; f; g; h; i]
      && (h1 =? 45)%N && (h2 =? 45)%N
  | _ => false
  end.

(** The code unit before a position: the last one of the text [pre]
    read so far, or [prev] when nothing was read. *)
Definition prevAfter (prev : option code_unit) (pre : jsstring)
  : option code_unit :=
  fold_left (fun _ c => Some c) pre prev.

Definition lastOf (pre : jsstring) : option code_unit := prevAfter None pre.

(** What it means for a pattern to match the word [w] when the code unit
    before it is [prev] and the text after it is [rest] (the context
    matters to [\b] only).  This is the reading of the pattern language
    that the matcher above is checked against. *)
Inductive Matches
  : regex -> option code_unit -> jsstring -> jsstring -> Prop :=
| MEps prev rest : Matches Eps prev [] rest
| MClass p prev c rest : p c = true -> Matches (Class p) prev [c] rest
| MWordBoundary prev rest :
    xorb (wordBefore prev) (wordAhead rest) = true ->
    Matches WordBoundary prev [] rest
| MCat r1 r2 prev w1 w2 rest :
    Matches r1 prev w1 (w2 ++ rest) ->
    Matches r2 (prevAfter prev w1) w2 rest ->
    Matches (Cat r1 r2) prev (w1 ++ w2) rest
| MOptSkip r prev rest : Matches (Opt r) prev [] rest
| MOptTake r prev w rest : Matches r prev w rest -> Matches (Opt r) prev w rest
| MRepeatO r prev rest : Matches (Repeat O r) prev [] rest
| MRepeatS n r prev w1 w2 rest :
    Matches r prev w1 (w2 ++ rest) ->
    Matches (Repeat n r) (prevAfter prev w1) w2 rest ->
    Matches (Repeat (S n) r) prev (w1 ++ w2) rest
| MStarStop p prev rest : Matches (StarClass p) prev [] rest
| MStarStep p prev c w rest :
    p c = true ->
    Matches (StarClass p) (Some c) w rest ->
    Matches (StarClass p) prev (c :: w) rest.

(** The pointer names a conversation of the list. *)
Definition pointerResolves (s : AppStore) : Prop :=
  In (currentConversationId s) (conversationIds s).

(* ================================================================== *)
(** ** File upload on the chat page ([handleFileUpload])

    [String.prototype.split] with a separator that matches one code unit
    at a time; the result is never empty, and [pop] takes its last
    element. *)

Fixpoint split (isSep : code_unit -> bool) (s : jsstring) : list jsstring :=
  match s with
  | [] => [[]]
  | c :: s' =>
      if isSep c then [] :: split isSep s'
      else match split isSep s' with
           | seg :: segs => (c :: seg) :: segs
           | [] => [[c]]
           end
  end.

Definition pop (segments : list jsstring) : jsstring := last segments [].

(** No code unit of [s] is a separator. *)
Definition free (isSep : code_unit -> bool) (s : jsstring) : bool :=
  forallb (fun c => negb (isSep c)) s.

(** [/[/\\]/] and ['.'] *)
Definition isPathSeparator (c : code_unit) : bool := ((c =? 47) || (c =? 92))%N.
Definition isDot (c : code_unit) : bool := (c =? 46)%N.

(** [selected.split(/[/\\]/).pop() || 'document'] *)
Definition fileNameOf (selected : jsstring) : jsstring :=
  let name := pop (split isPathSeparator selected) in
  if isEmpty name then js "document" else name.

(** [selected.split('.').pop()] *)
Definition fileTypeOf (selected : jsstring) : jsstring :=
  pop (split isDot selected).

(** A call [invoke('process_document', { filePath, fileType })]. *)
Module ProcessDocument.
Record t := process_document { filePath : jsstring; fileType : jsstring }.
End ProcessDocument.

(** How the file dialog settles: [inl (Some path)], [inl None] when the
    user cancels, [inr error] when [open] rejects. *)
Definition dialogSettled := (option jsstring + jsstring)%type.

(** How [process_document] settles; the resolved value is not used. *)
Definition documentSettled := (Document.t + jsstring)%type.

(** The paperclip (U+1F4CE, a surrogate pair) and check mark (U+2705)
    that open the two notices. *)
Definition uploadedNotice (fileName : jsstring) : jsstring :=
  [55357; 56526]%N ++ js " Uploaded: " ++ fileName.

Definition processedNotice (fileName : jsstring) : jsstring :=
  [9989]%N ++ js " Document processed: " ++ fileName.

Definition failedNotice (error : jsstring) : jsstring :=
  js "Failed to process document: " ++ error.

Definition systemMessage (content : jsstring) (now : Z) : Message.t :=
  {| Message.role := system;
     Message.content := content;
     Message.timestamp := now |}.

(** [handleFileUpload] from the settled dialog up to the [await] of
    [process_document], or to its end when nothing was selected or
    [open] rejected (then the [catch] block and [finally] run). *)
Definition handleFileUpload_selected (dialog : dialogSettled) (now : Z)
  (app : App.t) : App.t * option ProcessDocument.t :=
  match dialog with
  | inl (Some selected) =>
      if isEmpty selected then (setIsLoading false app, None)
      else
        (withStore
           (addMessage (systemMessage (uploadedNotice (fileNameOf selected)) now)
                       (App.store app))
           (setIsLoading true app),
         Some {| ProcessDocument.filePath := selected;
                 ProcessDocument.fileType := fileTypeOf selected |})
  | inl None => (setIsLoading false app, None)
  | inr error =>
      (setIsLoading false
         (withStore (addMessage (systemMessage (failedNotice error) now)
                                (App.store app)) app),
       None)
  end.

(** [handleFileUpload] from the settled [process_document] call on, for
    the path [selected] chosen before. *)
Definition handleFileUpload_settle (selected : jsstring)
  (result : documentSettled) (now : Z) (app : App.t) : App.t :=
  setIsLoading false
    (withStore
       (addMessage
          (systemMessage
             match result with
             | inl _ => processedNotice (fileNameOf selected)
             | inr error => failedNotice error
             end now)
          (App.store app))
       app).

(** One whole run of [handleFileUpload] with no other handler running
    during its [await]s. *)
Definition handleFileUpload (dialog : dialogSettled)
  (backend : ProcessDocument.t -> documentSettled) (t1 t2 : Z) (app : App.t)
  : App.t * list ProcessDocument.t :=
  match handleFileUpload_selected dialog t1 app with
  | (app1, Some call) =>
      (handleFileUpload_settle (ProcessDocument.filePath call)
                               (backend call) t2 app1,
       [call])
  | (app1, None) => (app1, [])
  end.

(* ================================================================== *)
(** ** The drop zone ([FileUpload]) *)

Module FileUpload.
Inductive status := idle | success | error.
Record t := mk { dragActive : bool; uploadStatus : status }.
End FileUpload.

Definition initialFileUpload : FileUpload.t :=
  {| FileUpload.dragActive := false; FileUpload.uploadStatus := FileUpload.idle |}.

(** [handleDrag], by the event's [type]. *)
Definition handleDrag (type : string) (st : FileUpload.t) : FileUpload.t :=
  if (String.eqb type "dragenter" || String.eqb type "dragover")%bool then
    {| FileUpload.dragActive := true;
       FileUpload.uploadStatus := FileUpload.uploadStatus st |}
  else if String.eqb type "dragleave" then
    {| FileUpload.dragActive := false;
       FileUpload.uploadStatus := FileUpload.uploadStatus st |}
  else st.

(** The [onFileSelect] calls a file list gives rise to: its first entry,
    if there is one. *)
Definition firstFile {File : Type} (files : list File) : list File :=
  match files with
  | f :: _ => [f]
  | [] => []
  end.

(** [handleDrop] and [handleChange]: the new state and the files passed
    to [onFileSelect]. *)
Definition handleDrop {File : Type} (files : list File) (st : FileUpload.t)
  : FileUpload.t * list File :=
  ({| FileUpload.dragActive := false;
      FileUpload.uploadStatus := FileUpload.uploadStatus st |},
   firstFile files).

Definition handleChange {File : Type} (files : list File) (st : FileUpload.t)
  : FileUpload.t * list File :=
  (st, firstFile files).

Inductive dropZoneEvent (File : Type) :=
| Drag (type : string)
| Drop (files : list File)
| Change (files : list File).

Arguments Drag {File} type.
Arguments Drop {File} files.
Arguments Change {File} files.

Definition dropZoneStep {File : Type} (e : dropZoneEvent File)
  (st : FileUpload.t * list File) : FileUpload.t * list File :=
  match e with
  | Drag type => (handleDrag type (fst st), snd st)
  | Drop files =>
      (fst (handleDrop files (fst st)), snd st ++ snd (handleDrop files (fst st)))
  | Change files =>
      (fst (handleChange files (fst st)),
       snd st ++ snd (handleChange files (fst st)))
  end.

(** The files an event hands to [onFileSelect]. *)
Definition filesSelected {File : Type} (e : dropZoneEvent File) : list File :=
  match e with
  | Drag _ => []
  | Drop files => firstFile files
  | Change files => firstFile files
  end.

(** A run of the drop zone: its final state and every file handed to
    [onFileSelect], in order. *)
Definition dropZoneRun {File : Type} (events : list (dropZoneEvent File))
  : FileUpload.t * list File :=
  fold_left (fun st e => dropZoneStep e st) events (initialFileUpload, []).

(** The icon of the drop zone. *)
Inductive dropZoneIcon := Spinner | SuccessMark | ErrorMark | UploadArrow.

Definition dropZoneIconOf (isProcessing : bool) (st : FileUpload.t)
  : dropZoneIcon :=
  if isProcessing then Spinner
  else match FileUpload.uploadStatus st with
       | FileUpload.success => SuccessMark
       | FileUpload.error => ErrorMark
       | FileUpload.idle => UploadArrow
       end.

(* ================================================================== *)
(** ** Code blocks in messages ([ChatArea], [ChatMessage]) *)

Fixpoint takeWhile (p : code_unit -> bool) (s : jsstring) : jsstring :=
  match s with
  | c :: s' => if p c then c :: takeWhile p s' else []
  | [] => []
  end.

(** [/language-(\w+)/.exec(className)]: the first capture group of the
    leftmost match, the group taking as many word characters as there
    are. *)
Fixpoint execLanguage (className : jsstring) : option jsstring :=
  let here :=
    if startsWith (js "language-") className
    then takeWhile is_word (skipn 9 className)
    else [] in
  match here with
  | _ :: _ => Some here
  | [] =>
      match className with
      | _ :: rest => execLanguage rest
      | [] => None
      end
  end.

(** [String(children).replace(/\n$/, '')] *)
Definition stripFinalNewline (s : jsstring) : jsstring :=
  match rev s with
  | c :: r => if (c =? 10)%N then rev r else s
  | [] => s
  end.

(** Whether the [code] renderer uses the syntax highlighter, and with
    which language. *)
Definition highlightedAs (inline : bool) (className : option jsstring)
  : option jsstring :=
  if inline then None
  else execLanguage (match className with Some c => c | None => [] end).

(* ================================================================== *)
(** ** More vocabulary *)

(** The field a store operation writes. *)
Definition writes (a : action) : field :=
  match a with
  | AddMessage _ | ClearMessages => Fmessages
  | AddDocument _ => Fdocuments
  | SetSelectedModel _ => FselectedModel
  | SetAvailableModels _ => FavailableModels
  | SetProcessing _ => FisProcessing
  | SetSystemHealth _ => FsystemHealth
  | AddConversation _ => Fconversations
  | SetCurrentConversation _ => FcurrentConversationId
  end.


Definition documentsAdded (actions : list action) : list Document.t :=
  flat_map (fun a => match a with AddDocument d => [d] | _ => [] end) actions.

Definition conversationsAdded (actions : list action) : list Conversation.t :=
  flat_map (fun a => match a with AddConversation c => [c] | _ => [] end)
           actions.

(** The clock readings from which the new chats of a run print their
    ids, and the models its menu clicks select, in order. *)
Definition chatReadings (events : list event) : list Z :=
  flat_map (fun e => match e with NewChat t_id _ => [t_id] | _ => [] end)
           events.

Definition modelsSelected (events : list event) : list jsstring :=
  flat_map (fun e => match e with ModelSelect m => [m] | _ => [] end) events.

Definition isUploadLoading (e : event) : bool :=
  match e with UploadLoading _ => true | _ => false end.

(** A run of the page with the number of [send_message] calls awaiting
    their answer; [None] when a [SendSettle] arrives with no call
    pending, which no execution produces. *)
Fixpoint track (events : list event) (page : Page.t) (pending : nat)
  : option (Page.t * nat) :=
  match events with
  | [] => Some (page, pending)
  | e :: rest =>
      match e with
      | SendBegin now =>
          track rest (handle e page)
                match handleSendMessage_begin now (Page.app page) with
                | Some _ => S pending
                | None => pending
                end
      | SendSettle _ _ =>
          match pending with
          | O => None
          | S n => track rest (handle e page) n
          end
      | _ => track rest (handle e page) pending
      end
  end.

(** Severity of a status colour. *)
Definition severity (color : string) : nat :=
  if String.eqb color "text-green-400" then 0
  else if String.eqb color "text-yellow-400" then 1
  else 2.

(** An octet of the IP pattern: one to three digits. *)
Definition octet (w : jsstring) : bool :=
  ((1 <=? List.length w)%nat && (List.length w <=? 3)%nat
   && forallb is_digit w)%bool.

(** Four octets joined by dots. *)
Definition ipShaped (w : jsstring) : Prop :=
  exists a b c d,
    w = a ++ [46%N] ++ b ++ [46%N] ++ c ++ [46%N] ++ d
    /\ octet a = true /\ octet b = true /\ octet c = true /\ octet d = true.

Definition fourDigits (w : jsstring) : bool :=
  ((List.length w =? 4)%nat && forallb is_digit w)%bool.

(** Nothing, or one hyphen or white-space code unit. *)
Definition cardSeparator (w : jsstring) : bool :=
  match w with
  | [] => true
  | [c] => oneOf "-" c || is_space c
  | _ => false
  end.

(** Four groups of four digits with optional separators between them. *)
Definition cardShaped (w : jsstring) : Prop :=
  exists g1 s1 g2 s2 g3 s3 g4,
    w = g1 ++ s1 ++ g2 ++ s2 ++ g3 ++ s3 ++ g4
    /\ fourDigits g1 = true /\ fourDigits g2 = true
    /\ fourDigits g3 = true /\ fourDigits g4 = true
    /\ cardSeparator s1 = true /\ cardSeparator s2 = true
    /\ cardSeparator s3 = true.

Definition emailLocal (c : code_unit) : bool :=
  is_upper c || is_lower c || is_digit c || oneOf "._%+-" c.
Definition emailDomain (c : code_unit) : bool :=
  is_upper c || is_lower c || is_digit c || oneOf ".-" c.
Definition emailTld (c : code_unit) : bool :=
  is_upper c || oneOf "|" c || is_lower c.

(** local@domain.tld, as the e-mail pattern reads it. *)
Definition emailShaped (w : jsstring) : Prop :=
  exists l d t,
    w = l ++ [64%N] ++ d ++ [46%N] ++ t
    /\ l <> [] /\ forallb emailLocal l = true
    /\ d <> [] /\ forallb emailDomain d = true
    /\ (2 <= List.length t)%nat /\ forallb emailTld t = true.

(** A word between two word boundaries, in its context. *)
Definition betweenBoundaries (pre w post : jsstring) : Prop :=
  xorb (wordBefore (lastOf pre)) (wordAhead (w ++ post)) = true
  /\ xorb (wordBefore (prevAfter (lastOf pre) w)) (wordAhead post) = true.

(** The parts of the store no handler of the page writes. *)
Definition untouched (s : AppStore) : Prop :=
  documents s = []
  /\ isProcessing s = false
  /\ systemHealth s = None
  /\ Forall (fun c => Conversation.messages c = []
                      /\ Conversation.title c = js "New Chat")
            (conversations s).

(* ================================================================== *)
(** * Properties *)

(** ** Strings *)

Lemma jsstring_eqb_eq a b : jsstring_eqb a b = true <-> a = b.
Proof.
  unfold jsstring_eqb. destruct (list_eq_dec N.eq_dec a b); split; congruence.
Qed.

Lemma jsstring_eqb_refl a : jsstring_eqb a a = true.
Proof. now apply jsstring_eqb_eq. Qed.

Lemma js_inj a b : js a = js b -> a = b.
Proof.
  unfold js. intros H.
  rewrite <- (string_of_list_ascii_of_string a),
          <- (string_of_list_ascii_of_string b).
  f_equal.
  revert H. generalize (list_ascii_of_string a) (list_ascii_of_string b).
  induction l as [|x l IH]; intros [|y l']; simpl; try discriminate; auto.
  intros [= Hxy Hl]. f_equal; auto.
  rewrite <- (ascii_N_embedding x), <- (ascii_N_embedding y). now f_equal.
Qed.

Lemma to_int_proper z : Z.to_int z <> Decimal.Pos Decimal.Nil
                        /\ Z.to_int z <> Decimal.Neg Decimal.Nil.
Proof.
  destruct z as [|p|p]; simpl; split; try discriminate;
    intros [= H]; now apply (DecimalPos.Unsigned.to_uint_nonnil p).
Qed.

(** Distinct clock readings print as distinct identifiers. *)
Lemma toString_inj a b : toString a = toString b -> a = b.
Proof.
  unfold toString. intros H. apply js_inj in H.
  apply DecimalZ.to_int_inj.
  destruct (to_int_proper a) as [Ha1 Ha2], (to_int_proper b) as [Hb1 Hb2].
  pose proof (NilZero.isi _ Ha1 Ha2) as Ia.
  pose proof (NilZero.isi _ Hb1 Hb2) as Ib.
  rewrite H in Ia. congruence.
Qed.

(** ** The store *)

(** Closes a goal [unchangedExcept f s s'] (and the equalities stated
    next to it) when [s'] is [s] with field [f] rewritten. *)
Ltac frame :=
  repeat split; try (left; reflexivity); try (right; reflexivity).

Lemma run_app xs ys s : run (xs ++ ys) s = run ys (run xs s).
Proof. unfold run. apply fold_left_app. Qed.

Lemma step_frame a s :
  match a with
  | AddMessage _ | ClearMessages => unchangedExcept Fmessages s (step a s)
  | AddDocument _ => unchangedExcept Fdocuments s (step a s)
  | SetSelectedModel _ => unchangedExcept FselectedModel s (step a s)
  | SetAvailableModels _ => unchangedExcept FavailableModels s (step a s)
  | SetProcessing _ => unchangedExcept FisProcessing s (step a s)
  | SetSystemHealth _ => unchangedExcept FsystemHealth s (step a s)
  | AddConversation _ => unchangedExcept Fconversations s (step a s)
  | SetCurrentConversation _ =>
      unchangedExcept FcurrentConversationId s (step a s)
  end.
Proof.
  destruct a; frame.
Qed.

Lemma existingLogs_same s s' :
  conversations s' = conversations s ->
  existingLogs s s' = map Conversation.messages (conversations s).
Proof.
  unfold existingLogs. intros ->. now rewrite firstn_all.
Qed.

Lemma existingLogs_addConversation c s :
  existingLogs s (addConversation c s)
  = map Conversation.messages (conversations s).
Proof.
  unfold existingLogs. simpl.
  rewrite firstn_app, firstn_all, Nat.sub_diag. simpl.
  now rewrite app_nil_r.
Qed.

Lemma messages_run_addMessage ms : forall s,
  messages (run (map AddMessage ms) s) = messages s ++ ms.
Proof.
  induction ms as [|m ms IH]; intros s; simpl.
  - now rewrite app_nil_r.
  - change (run (AddMessage m :: map AddMessage ms) s)
      with (run (map AddMessage ms) (addMessage m s)).
    rewrite IH. simpl. now rewrite <- app_assoc.
Qed.

Lemma resolve_nil_iff id s :
  resolve id s = [] <-> ~ In id (conversationIds s).
Proof.
  unfold resolve, conversationIds.
  induction (conversations s) as [|c cs IH]; simpl.
  - tauto.
  - destruct (jsstring_eqb (Conversation.id c) id) eqn:E.
    + apply jsstring_eqb_eq in E. split; [discriminate | tauto].
    + rewrite IH. split; [intros H [H1|H1] | tauto]; auto.
      apply jsstring_eqb_eq in H1. congruence.
Qed.

Lemma resolve_In id s c :
  In c (resolve id s) <-> In c (conversations s) /\ Conversation.id c = id.
Proof.
  unfold resolve. rewrite filter_In, jsstring_eqb_eq. tauto.
Qed.

(** C10: each store setter writes its own field only.  [setSelectedModel]
    changes at most [selectedModel], [setCurrentConversation] at most
    [currentConversationId], [addMessage] at most [messages],
    [addDocument] at most [documents] and [addConversation] at most
    [conversations]; every other field of the state is carried over
    unchanged, and after each of them the conversations already present
    have the message logs they had. *)
Theorem setters_write_own_field_only :
  forall (state : AppStore) (model id : jsstring) (message : Message.t)
         (document : Document.t) (conversation : Conversation.t),
    (unchangedExcept FselectedModel state (setSelectedModel model state)
     /\ selectedModel (setSelectedModel model state) = model)
    /\ (unchangedExcept FcurrentConversationId state
          (setCurrentConversation id state)
        /\ currentConversationId (setCurrentConversation id state) = id)
    /\ (unchangedExcept Fmessages state (addMessage message state)
        /\ messages (addMessage message state) = messages state ++ [message])
    /\ (unchangedExcept Fdocuments state (addDocument document state)
        /\ documents (addDocument document state)
           = documents state ++ [document])
    /\ (unchangedExcept Fconversations state
          (addConversation conversation state)
        /\ conversations (addConversation conversation state)
           = conversations state ++ [conversation])
    /\ Forall (fun state' =>
                 existingLogs state state'
                 = map Conversation.messages (conversations state))
              [ setSelectedModel model state;
                setCurrentConversation id state;
                addMessage message state;
                addDocument document state;
                addConversation conversation state ].
Proof.
  intros state model id message document conversation.
  frame.
  repeat constructor;
    try (apply existingLogs_same; reflexivity).
  apply existingLogs_addConversation.
Qed.

(** ** Model selection *)

(** C3, as the code has it: selecting a model always succeeds.  For every
    model name and every state of the menu and the store,
    [handleModelSelect] makes that name the [selectedModel], closes the
    menu and changes nothing else; it consults no per-model state (the
    row may show the model as being downloaded, or the name may be absent
    from [availableModels]) and has no failing outcome. *)
Theorem handleModelSelect_always_selects :
  forall (model : jsstring) (sel : ModelSelector.t) (state : AppStore),
    let st' := handleModelSelect model (sel, state) in
    selectedModel (snd st') = model
    /\ unchangedExcept FselectedModel state (snd st')
    /\ ModelSelector.isOpen (fst st') = false
    /\ ModelSelector.downloading (fst st') = ModelSelector.downloading sel.
Proof.
  intros model sel state. simpl. frame.
Qed.

(** C3, counterexample to the specified behaviour: while "mistral-7b" is
    being downloaded (its row shows the pulsing download icon, so it is
    not ready), clicking its row selects it: the earlier selection
    "llama2-7b" is not retained and nothing fails.  The same happens for
    a name the store does not list at all. *)
Lemma select_model_being_downloaded :
  let st0 := ({| ModelSelector.isOpen := true;
                 ModelSelector.downloading := None |}, initialStore 0) in
  let st1 := handleDownloadModel_begin (js "mistral-7b") st0 in
  let st2 := handleModelSelect (js "mistral-7b") st1 in
  rowIconOf (js "mistral-7b") st1 = DownloadPulse
  /\ selectedModel (snd st1) = js "llama2-7b"
  /\ selectedModel (snd st2) = js "mistral-7b"
  /\ existsb (jsstring_eqb (js "no-such-model")) (availableModels (snd st0))
     = false
  /\ selectedModel (setSelectedModel (js "no-such-model") (snd st0))
     = js "no-such-model".
Proof. vm_compute. repeat split. Qed.

(** ** The message log *)

Lemma nondecreasing_sorted ts :
  nondecreasing ts = true <-> Sorted.StronglySorted Z.le ts.
Proof.
  induction ts as [|a ts IH].
  - split; [constructor | reflexivity].
  - destruct ts as [|b ts].
    + split; [repeat constructor | reflexivity].
    + change (nondecreasing (a :: b :: ts))
        with ((a <=? b)%Z && nondecreasing (b :: ts)).
      rewrite andb_true_iff, Z.leb_le, IH. split.
      * intros [Hab Hs]. constructor; auto.
        inversion Hs as [|? ? Hs' Hall]; subst.
        constructor; auto.
        eapply Forall_impl; [|exact Hall]. intros c Hc. cbv beta in *. lia.
      * intros Hs. inversion Hs as [|? ? Hs' Hall]; subst.
        split; auto. now inversion Hall.
Qed.

Lemma sorted_drop_prefix (a b : list Z) :
  Sorted.StronglySorted Z.le (a ++ b) -> Sorted.StronglySorted Z.le b.
Proof.
  induction a as [|x a IH]; simpl; auto.
  intros H. inversion H; auto.
Qed.

Lemma sorted_drop_middle (a : list Z) x b :
  Sorted.StronglySorted Z.le (a ++ x :: b) ->
  Sorted.StronglySorted Z.le (a ++ b).
Proof.
  induction a as [|y a IH]; simpl; intros H;
    inversion H as [|? ? Hs Hall]; subst; auto.
  constructor; auto.
  rewrite Forall_app in *. destruct Hall as [H1 H2].
  split; auto. now inversion H2.
Qed.

(** With a clock that does not go back, the page's log stays ordered:
    what matters is the log so far followed by the readings to come. *)
Lemma runEvents_keeps_order events : forall page,
  Sorted.StronglySorted Z.le
    (timestamps (messages (storeOf page)) ++ stampsOf events) ->
  Sorted.StronglySorted Z.le
    (timestamps (messages (storeOf (runEvents events page)))).
Proof.
  unfold storeOf, timestamps.
  induction events as [|e events IH]; intros [app sel] H.
  - simpl in *. now rewrite app_nil_r in H.
  - change (runEvents (e :: events) {| Page.app := app; Page.selector := sel |})
      with (runEvents events
              (handle e {| Page.app := app; Page.selector := sel |})).
    apply IH. unfold stampsOf in *.
    destruct e; simpl in *; auto.
    + (* SendBegin *)
      unfold handleSendMessage_begin.
      destruct (isEmpty (trim (App.message app)) || App.isLoading app);
        simpl.
      * eapply sorted_drop_middle; eauto.
      * now rewrite map_app, <- app_assoc.
    + (* SendSettle *)
      destruct result; simpl; now rewrite map_app, <- app_assoc.
    + (* NewChat *)
      eapply sorted_drop_prefix; eauto.
    + (* ConversationClick *)
      unfold handleConversationClick.
      destruct (nth_error (conversations (App.store app)) n); simpl; auto.
    + (* UploadNotice *)
      now rewrite map_app, <- app_assoc.
Qed.

(** C4, as the code has it.  The store keeps one message list.  Any
    sequence of [addMessage] calls puts each message at the end, in call
    order, after the messages already there, which keep their places;
    the timestamps of the result are those the callers passed, in that
    order, so they are non-decreasing exactly when passed so.  Of the
    other store operations, [clearMessages] empties the list and the
    remaining seven leave it as it is; no store operation writes a
    conversation's own [messages].  On the page, the log's timestamps
    are non-decreasing in every run whose clock readings do not go
    back. *)
Theorem addMessage_appends_in_call_order :
  forall (state : AppStore) (ms : list Message.t),
    let state' := run (map AddMessage ms) state in
    messages state' = messages state ++ ms
    /\ firstn (List.length (messages state)) (messages state')
       = messages state
    /\ timestamps (messages state')
       = timestamps (messages state) ++ timestamps ms
    /\ nondecreasing (timestamps (messages state'))
       = nondecreasing (timestamps (messages state) ++ timestamps ms)
    /\ messages (clearMessages state) = []
    /\ (forall a : action,
          messages (step a state)
          = match a with
            | AddMessage m => messages state ++ [m]
            | ClearMessages => []
            | _ => messages state
            end)
    /\ (forall a : action,
          existingLogs state (step a state)
          = map Conversation.messages (conversations state))
    /\ (forall (now : Z) (events : list event),
          nondecreasing (stampsOf events) = true ->
          nondecreasing
            (timestamps
               (messages (storeOf (runEvents events (initialPage now)))))
          = true).
Proof.
  intros state ms state'. subst state'.
  rewrite messages_run_addMessage.
  repeat split.
  - rewrite firstn_app, firstn_all, Nat.sub_diag. simpl.
    now rewrite app_nil_r.
  - unfold timestamps. now rewrite map_app.
  - unfold timestamps. now rewrite map_app.
  - now destruct a.
  - destruct a; try (apply existingLogs_same; reflexivity).
    apply existingLogs_addConversation.
  - intros now events H. apply nondecreasing_sorted.
    apply runEvents_keeps_order. simpl. now apply nondecreasing_sorted.
Qed.

Lemma addMessage_appends_in_call_order_witness :
  let events := [Typed (js "hi"); SendBegin 10; SendSettle (inl (js "yo")) 12;
                 Typed (js "more"); SendBegin 12;
                 SendSettle (inr (js "busy")) 15] in
  nondecreasing (stampsOf events) = true
  /\ nondecreasing
       (timestamps (messages (storeOf (runEvents events (initialPage 0)))))
     = true.
Proof.
  split; [reflexivity|].
  apply (addMessage_appends_in_call_order (initialStore 0) []).
  reflexivity.
Defined.

(** C4, counterexample to the specified behaviour: the store accepts a
    message stamped 3 after one stamped 5, so the log's timestamps
    decrease; and [clearMessages], which [handleNewChat] calls, removes
    the messages already appended without storing them in any
    conversation. *)
Lemma log_out_of_order_and_cleared :
  let m1 := {| Message.role := user; Message.content := js "first";
               Message.timestamp := 5 |} in
  let m2 := {| Message.role := assistant; Message.content := js "second";
               Message.timestamp := 3 |} in
  let app := {| App.message := []; App.isLoading := false;
                App.store := run [AddMessage m1; AddMessage m2]
                                 (initialStore 0) |} in
  messages (App.store app) = [m1; m2]
  /\ nondecreasing (timestamps (messages (App.store app))) = false
  /\ messages (run [AddMessage m1; AddMessage m2; ClearMessages]
                   (initialStore 0)) = []
  /\ messages (App.store (handleNewChat 10 10 app)) = []
  /\ map Conversation.messages
         (conversations (App.store (handleNewChat 10 10 app))) = [[]; []].
Proof. vm_compute. repeat split. Qed.

(** ** The current conversation *)

Lemma handle_keeps_pointer e page :
  pointerResolves (storeOf page) -> pointerResolves (storeOf (handle e page)).
Proof.
  unfold pointerResolves, conversationIds, storeOf.
  destruct page as [app sel]. intros H.
  destruct e; simpl in *; auto.
  - (* SendBegin *)
    unfold handleSendMessage_begin.
    destruct (isEmpty (trim (App.message app)) || App.isLoading app);
      simpl; auto.
  - (* SendSettle *)
    destruct result; simpl; auto.
  - (* NewChat *)
    rewrite map_app. apply in_or_app. right. simpl. now left.
  - (* ConversationClick *)
    unfold handleConversationClick.
    destruct (nth_error (conversations (App.store app)) n) as [conv|] eqn:E;
      simpl; auto.
    apply in_map. eapply nth_error_In; eauto.
Qed.

Lemma runEvents_keeps_pointer events : forall page,
  pointerResolves (storeOf page) ->
  pointerResolves (storeOf (runEvents events page)).
Proof.
  induction events as [|e events IH]; intros page H; simpl; auto.
  apply IH. now apply handle_keeps_pointer.
Qed.

(** C5, as the code has it.  [setCurrentConversation] has no failing
    outcome: for every id, present or not, it stores the id in
    [currentConversationId] and changes nothing else, so no message log
    is touched.  Afterwards the pointer resolves to a conversation
    exactly when the id was in the conversation list.  The handlers of
    the page only pass ids of listed conversations, hence in every state
    the page reaches from its initial one the pointer names a listed
    conversation. *)
Theorem setCurrentConversation_never_fails :
  forall (id : jsstring) (state : AppStore),
    let state' := setCurrentConversation id state in
    currentConversationId state' = id
    /\ unchangedExcept FcurrentConversationId state state'
    /\ existingLogs state state'
       = map Conversation.messages (conversations state)
    /\ (pointerResolves state' <-> In id (conversationIds state))
    /\ (resolve id state' = [] <-> ~ In id (conversationIds state))
    /\ (forall (now : Z) (events : list event),
          pointerResolves (storeOf (runEvents events (initialPage now)))).
Proof.
  intros id state state'. subst state'.
  split; [reflexivity|].
  split; [apply (step_frame (SetCurrentConversation id))|].
  split; [now apply existingLogs_same|].
  split; [unfold pointerResolves, conversationIds; simpl; tauto|].
  split; [apply (resolve_nil_iff id (setCurrentConversation id state))|].
  intros now events. apply runEvents_keeps_pointer.
  unfold pointerResolves. simpl. now left.
Qed.

(** C5, counterexample to the specified behaviour: switching to the unknown
    id "2" in the initial store does not fail; the pointer then names no
    conversation. *)
Lemma switch_to_unknown_id_dangles :
  let state := setCurrentConversation (js "2") (initialStore 0) in
  currentConversationId state = js "2"
  /\ conversationIds state = [js "1"]
  /\ resolve (currentConversationId state) state = [].
Proof. vm_compute. repeat split. Qed.

(** ** New conversations *)

Lemma handleNewChat_shape t_id t_stamp app :
  let store' := App.store (handleNewChat t_id t_stamp app) in
  conversations store'
  = conversations (App.store app)
    ++ [ {| Conversation.id := toString t_id;
            Conversation.title := js "New Chat";
            Conversation.timestamp := t_stamp;
            Conversation.messages := [] |} ]
  /\ currentConversationId store' = toString t_id
  /\ messages store' = [].
Proof. repeat split. Qed.

(** When the clock reading differs from every reading used before (and
    the bootstrap id), the new id is fresh. *)
Lemma handleNewChat_fresh_on_new_reading t_id t_stamp app readings :
  conversationIds (App.store app) = map toString readings ->
  ~ In t_id readings ->
  ~ In (toString t_id) (conversationIds (App.store app))
  /\ List.length (resolve (toString t_id)
                    (App.store (handleNewChat t_id t_stamp app))) = 1%nat.
Proof.
  intros Hids Hnew.
  assert (Hfresh : ~ In (toString t_id) (conversationIds (App.store app))).
  { rewrite Hids, in_map_iff. intros (r & Hr & Hin).
    apply toString_inj in Hr. now subst. }
  split; [exact Hfresh|].
  apply resolve_nil_iff in Hfresh.
  unfold resolve in *. simpl.
  rewrite filter_app, Hfresh. simpl.
  now rewrite jsstring_eqb_refl.
Qed.

(** C8, the code at the failing input: two runs of [handleNewChat] that
    read the same clock value 1700000000000 create two conversations
    with the same id, and the current pointer then matches both.  Each
    is created with an empty log and the title "New Chat", and is made
    current. *)
Lemma handleNewChat_same_reading_same_id :
  let app0 := {| App.message := []; App.isLoading := false;
                 App.store := initialStore 0 |} in
  let app1 := handleNewChat 1700000000000 1700000000000 app0 in
  let app2 := handleNewChat 1700000000000 1700000000000 app1 in
  conversationIds (App.store app2)
  = [js "1"; js "1700000000000"; js "1700000000000"]
  /\ currentConversationId (App.store app2) = js "1700000000000"
  /\ List.length (resolve (currentConversationId (App.store app2))
                    (App.store app2)) = 2%nat
  /\ map Conversation.title (conversations (App.store app2))
     = [js "New Chat"; js "New Chat"; js "New Chat"]
  /\ map Conversation.messages (conversations (App.store app2))
     = [[]; []; []].
Proof. vm_compute. repeat split. Qed.

(** ** Trimming and substrings *)

Lemma digit_not_space c : is_digit c = true -> is_space c = false.
Proof.
  unfold is_digit. rewrite andb_true_iff, !N.leb_le. intros [H1 H2].
  assert (E : (c = 48 \/ c = 49 \/ c = 50 \/ c = 51 \/ c = 52 \/ c = 53
               \/ c = 54 \/ c = 55 \/ c = 56 \/ c = 57)%N) by lia.
  repeat (destruct E as [->|E]; [reflexivity|]). now subst.
Qed.

Lemma digit_is_word c : is_digit c = true -> is_word c = true.
Proof.
  unfold is_word. intros ->. now rewrite !orb_true_r.
Qed.

Lemma trimStart_app_nonspace pre c rest :
  is_space c = false ->
  trimStart (pre ++ c :: rest) = trimStart pre ++ c :: rest.
Proof.
  intros Hc. induction pre as [|x pre IH]; simpl.
  - now rewrite Hc.
  - destruct (is_space x); auto.
Qed.

(** Trimming leaves alone whatever lies between two non-blank code
    units. *)
Lemma trim_around pre a mid z post :
  is_space a = false -> is_space z = false ->
  trim (pre ++ (a :: mid ++ [z]) ++ post)
  = trimStart pre ++ (a :: mid ++ [z]) ++ trimEnd post.
Proof.
  intros Ha Hz. unfold trim, trimEnd.
  replace (pre ++ (a :: mid ++ [z]) ++ post)
    with (pre ++ a :: (mid ++ [z] ++ post))
    by (simpl; now rewrite <- !app_assoc).
  rewrite (trimStart_app_nonspace _ _ _ Ha).
  replace (trimStart pre ++ a :: mid ++ [z] ++ post)
    with ((trimStart pre ++ a :: mid) ++ z :: post)
    by (rewrite <- app_assoc; reflexivity).
  rewrite rev_app_distr. simpl rev at 1.
  rewrite <- app_assoc. simpl app at 2.
  rewrite (trimStart_app_nonspace _ _ _ Hz).
  rewrite rev_app_distr. simpl rev at 1.
  rewrite rev_involutive, <- !app_assoc. simpl. now rewrite <- !app_assoc.
Qed.

Lemma startsWith_app w rest : startsWith w (w ++ rest) = true.
Proof.
  induction w as [|x w IH]; simpl; auto.
  now rewrite N.eqb_refl.
Qed.

Lemma includes_unfold s w :
  includes s w
  = startsWith w s || match s with [] => false | _ :: s' => includes s' w end.
Proof. destruct s; reflexivity. Qed.

Lemma includes_app pre w post : includes (pre ++ w ++ post) w = true.
Proof.
  induction pre as [|x pre IH]; simpl.
  - rewrite includes_unfold, startsWith_app. reflexivity.
  - rewrite IH. apply orb_true_r.
Qed.

Lemma startsWith_spec w : forall s,
  startsWith w s = true <-> exists rest, s = w ++ rest.
Proof.
  induction w as [|a w IH]; intros s; simpl.
  - split; [exists s; reflexivity | reflexivity].
  - destruct s as [|b s].
    + split; [discriminate | intros [rest [=]]].
    + rewrite andb_true_iff, N.eqb_eq, IH. split.
      * intros [-> [rest ->]]. now exists rest.
      * intros [rest [= -> ->]]. split; [reflexivity | now exists rest].
Qed.

(** [includes] is the substring relation. *)
Lemma includes_spec w : forall s,
  includes s w = true <-> exists pre post, s = pre ++ w ++ post.
Proof.
  induction s as [|c s IH]; rewrite includes_unfold, orb_true_iff,
    startsWith_spec.
  - split.
    + intros [[rest ->] | [=]]. now exists [], rest.
    + intros (pre & post & E). left.
      symmetry in E. apply app_eq_nil in E. destruct E as [-> E].
      exists post. now rewrite E.
  - rewrite IH. split.
    + intros [[rest ->] | (pre & post & ->)].
      * now exists [], rest.
      * now exists (c :: pre), post.
    + intros (pre & post & E). destruct pre as [|x pre].
      * left. now exists post.
      * right. injection E as -> ->. now exists pre, post.
Qed.

(** ** Sending a message *)

Lemma handleSendMessage_begin_proceeds now app :
  isEmpty (trim (App.message app)) = false ->
  App.isLoading app = false ->
  handleSendMessage_begin now app
  = Some ({| App.message := [];
             App.isLoading := true;
             App.store :=
               addMessage {| Message.role := user;
                             Message.content := trim (App.message app);
                             Message.timestamp := now |} (App.store app) |},
          {| Invoke.message := trim (App.message app);
             Invoke.modelName := selectedModel (App.store app) |}).
Proof.
  intros H1 H2. unfold handleSendMessage_begin. now rewrite H1, H2.
Qed.

Lemma handleSendMessage_settle_rejected error now pending :
  let after := handleSendMessage_settle (inr error) now pending in
  messages (App.store after)
  = messages (App.store pending)
    ++ [ {| Message.role := system;
            Message.content := js "Error: " ++ error;
            Message.timestamp := now |} ]
  /\ unchangedExcept Fmessages (App.store pending) (App.store after)
  /\ App.isLoading after = false.
Proof.
  simpl. frame.
Qed.

(** C7: a failed backend call is shown in the conversation and the page
    stays usable.  Whenever a send goes out and the [send_message] call
    rejects with [error], [handleSendMessage] returns normally: the log
    gains the user message followed by a system message reading
    ["Error: " ++ error], nothing else in the store changes, and
    [isLoading] is false again, so that any later non-blank input is
    accepted, appended and dispatched like the first.  The same holds
    from whatever state [pending] the page is in when the call rejects:
    the system message is appended to the log as it then is. *)
Theorem backend_failure_becomes_system_message :
  forall (backend : Invoke.t -> settled) (t1 t2 : Z) (app : App.t)
         (error : jsstring),
    isEmpty (trim (App.message app)) = false ->
    App.isLoading app = false ->
    backend {| Invoke.message := trim (App.message app);
               Invoke.modelName := selectedModel (App.store app) |}
    = inr error ->
    let app' := fst (handleSendMessage backend t1 t2 app) in
    messages (App.store app')
    = messages (App.store app)
      ++ [ {| Message.role := user;
              Message.content := trim (App.message app);
              Message.timestamp := t1 |};
           {| Message.role := system;
              Message.content := js "Error: " ++ error;
              Message.timestamp := t2 |} ]
    /\ unchangedExcept Fmessages (App.store app) (App.store app')
    /\ App.isLoading app' = false
    /\ (forall (text : jsstring) (t3 : Z),
          isEmpty (trim text) = false ->
          exists (app1 : App.t) (call : Invoke.t),
            handleSendMessage_begin t3 (setMessage text app')
            = Some (app1, call)
            /\ Invoke.message call = trim text
            /\ messages (App.store app1)
               = messages (App.store app')
                 ++ [ {| Message.role := user;
                         Message.content := trim text;
                         Message.timestamp := t3 |} ])
    /\ (forall pending : App.t,
          let after := handleSendMessage_settle (inr error) t2 pending in
          messages (App.store after)
          = messages (App.store pending)
            ++ [ {| Message.role := system;
                    Message.content := js "Error: " ++ error;
                    Message.timestamp := t2 |} ]
          /\ unchangedExcept Fmessages (App.store pending) (App.store after)
          /\ App.isLoading after = false).
Proof.
  intros backend t1 t2 app error Hne Hload Hfail app'.
  subst app'. unfold handleSendMessage.
  rewrite (handleSendMessage_begin_proceeds t1 app Hne Hload), Hfail.
  split; [simpl; now rewrite <- app_assoc|].
  split; [simpl; frame|].
  split; [reflexivity|].
  split.
  - intros text t3 Htext. eexists; eexists. split.
    + apply handleSendMessage_begin_proceeds; [exact Htext | reflexivity].
    + split; reflexivity.
  - intros pending. apply handleSendMessage_settle_rejected.
Qed.

Lemma backend_failure_becomes_system_message_witness :
  let app := {| App.message := js " hi "; App.isLoading := false;
                App.store := initialStore 0 |} in
  let app' := fst (handleSendMessage (fun _ => inr (js "offline")) 1 2 app) in
  map Message.content (messages (App.store app'))
  = [js "hi"; js "Error: offline"]
  /\ map Message.role (messages (App.store app')) = [user; system]
  /\ App.isLoading app' = false.
Proof.
  pose proof (backend_failure_becomes_system_message
                (fun _ => inr (js "offline")) 1 2
                {| App.message := js " hi "; App.isLoading := false;
                   App.store := initialStore 0 |} (js "offline")
                eq_refl eq_refl eq_refl) as H.
  cbv zeta in H. destruct H as (Hlog & _ & Hload & _).
  cbv zeta. rewrite Hlog, Hload. repeat split.
Defined.

(** ** The PII guard *)

Lemma prevAfter_app prev w1 w2 :
  prevAfter prev (w1 ++ w2) = prevAfter (prevAfter prev w1) w2.
Proof. unfold prevAfter. apply fold_left_app. Qed.

Lemma matchFrom_Repeat_S n r prev s k :
  matchFrom (Repeat (S n) r) prev s k
  = matchFrom r prev s (fun prev' s' => matchFrom (Repeat n r) prev' s' k).
Proof. reflexivity. Qed.

Lemma matchFrom_Star_cons p prev c s k :
  matchFrom (StarClass p) prev (c :: s) k
  = p c && matchFrom (StarClass p) (Some c) s k || k prev (c :: s).
Proof. reflexivity. Qed.

(** The matcher against the relation: it answers [true] exactly when
    the text splits into a word the pattern matches and a rest the
    continuation accepts. *)
Lemma matchFrom_spec r : forall prev s k,
  matchFrom r prev s k = true
  <-> exists w rest, s = w ++ rest /\ Matches r prev w rest
                     /\ k (prevAfter prev w) rest = true.
Proof.
  induction r as [ | p | | r1 IH1 r2 IH2 | r1 IH1 | n r1 IH1 | p ];
    intros prev s k.
  - (* Eps *)
    simpl. split.
    + intros H. exists [], s. repeat split; auto. constructor.
    + intros (w & rest & -> & Hm & Hk). inversion Hm; subst. exact Hk.
  - (* Class *)
    simpl. split.
    + destruct s as [|c s]; [discriminate|].
      rewrite andb_true_iff. intros [Hp Hk].
      exists [c], s. repeat split; auto. now constructor.
    + intros (w & rest & -> & Hm & Hk). inversion Hm; subst. simpl.
      rewrite andb_true_iff. split; assumption.
  - (* WordBoundary *)
    simpl. rewrite andb_true_iff. split.
    + intros [Hb Hk]. exists [], s. repeat split; auto. now constructor.
    + intros (w & rest & -> & Hm & Hk). inversion Hm; subst. split; assumption.
  - (* Cat *)
    simpl. rewrite IH1. split.
    + intros (w1 & rest1 & -> & Hm1 & Hk1).
      apply IH2 in Hk1. destruct Hk1 as (w2 & rest & -> & Hm2 & Hk).
      exists (w1 ++ w2), rest. rewrite app_assoc, prevAfter_app.
      repeat split; auto. now constructor.
    + intros (w & rest & -> & Hm & Hk). inversion Hm; subst.
      exists w1, (w2 ++ rest). rewrite app_assoc. repeat split; auto.
      apply IH2. exists w2, rest. rewrite <- prevAfter_app. auto.
  - (* Opt *)
    simpl. rewrite orb_true_iff, IH1. split.
    + intros [(w & rest & -> & Hm & Hk) | Hk].
      * exists w, rest. repeat split; auto. now constructor.
      * exists [], s. repeat split; auto. constructor.
    + intros (w & rest & -> & Hm & Hk). inversion Hm; subst.
      * right. exact Hk.
      * left. exists w, rest. auto.
  - (* Repeat *)
    revert prev s. induction n as [|n IHn]; intros prev s.
    + simpl. split.
      * intros H. exists [], s. repeat split; auto. constructor.
      * intros (w & rest & -> & Hm & Hk). inversion Hm; subst. exact Hk.
    + rewrite matchFrom_Repeat_S, IH1. split.
      * intros (w1 & rest1 & -> & Hm1 & Hk1).
        apply IHn in Hk1. destruct Hk1 as (w2 & rest & -> & Hm2 & Hk).
        exists (w1 ++ w2), rest. rewrite app_assoc, prevAfter_app.
        repeat split; auto. now constructor.
      * intros (w & rest & -> & Hm & Hk). inversion Hm; subst.
        exists w1, (w2 ++ rest). rewrite app_assoc. repeat split; auto.
        apply IHn. exists w2, rest. rewrite <- prevAfter_app. auto.
  - (* StarClass *)
    revert prev. induction s as [|c s IHs]; intros prev.
    + simpl. split.
      * intros H. exists [], []. repeat split; auto. constructor.
      * intros (w & rest & E & Hm & Hk).
        symmetry in E. apply app_eq_nil in E. destruct E; subst. exact Hk.
    + rewrite matchFrom_Star_cons, orb_true_iff, andb_true_iff, IHs. split.
      * intros [[Hp (w & rest & -> & Hm & Hk)] | Hk].
        -- exists (c :: w), rest. repeat split; auto. now constructor.
        -- exists [], (c :: s). repeat split; auto. constructor.
      * intros (w & rest & E & Hm & Hk). inversion Hm; subst.
        -- right. simpl in E. subst rest. exact Hk.
        -- left. simpl in E. injection E as -> ->.
           split; auto. exists w0, rest. auto.
Qed.

Lemma search_spec r : forall s prev,
  search r prev s = true
  <-> exists pre w post, s = pre ++ w ++ post
                         /\ Matches r (prevAfter prev pre) w post.
Proof.
  induction s as [|c s IH]; intros prev.
  - simpl. rewrite orb_false_r, matchFrom_spec. split.
    + intros (w & rest & E & Hm & _). exists [], w, rest. auto.
    + intros (pre & w & post & E & Hm).
      symmetry in E. apply app_eq_nil in E. destruct E as [-> E].
      exists w, post. simpl in Hm. auto.
  - simpl. rewrite orb_true_iff, matchFrom_spec, IH. split.
    + intros [(w & rest & E & Hm & _) | (pre & w & post & E & Hm)].
      * exists [], w, rest. auto.
      * exists (c :: pre), w, post. subst s. auto.
    + intros (pre & w & post & E & Hm). destruct pre as [|x pre].
      * left. exists w, post. auto.
      * right. simpl in E. injection E as -> ->. exists pre, w, post. auto.
Qed.

(** [test] holds exactly when some substring of the text is matched by
    the pattern in its context. *)
Lemma test_spec r text :
  test r text = true
  <-> exists pre w post, text = pre ++ w ++ post
                         /\ Matches r (lastOf pre) w post.
Proof. apply search_spec. Qed.

Lemma test_at_position r pre s :
  matchFrom r (lastOf pre) s accept = true -> test r (pre ++ s) = true.
Proof.
  intros H. apply matchFrom_spec in H.
  destruct H as (w & rest & -> & Hm & _).
  apply test_spec. exists pre, w, rest. auto.
Qed.

Lemma ssnShaped_inv w :
  ssnShaped w = true ->
  exists a b c d e f g h i,
    w = [a; b; c; 45%N; d; e; 45%N; f; g; h; i]
    /\ Forall (fun x => is_digit x = true) [a; b; c; d; e; f; g; h; i].
Proof.
  intros Hw.
  destruct w as [|a [|b [|c [|h1 [|d [|e [|h2 [|f [|g [|h [|i [|? ?]]]]]]]]]]]];
    try discriminate.
  unfold ssnShaped in Hw.
  apply andb_true_iff in Hw. destruct Hw as [Hw Hh2].
  apply andb_true_iff in Hw. destruct Hw as [Hd Hh1].
  apply N.eqb_eq in Hh1, Hh2. subst h1 h2.
  exists a, b, c, d, e, f, g, h, i. split; [reflexivity|].
  apply Forall_forall. now apply forallb_forall.
Qed.

(** The SSN pattern matches an SSN-shaped word standing between word
    boundaries. *)
Lemma ssnRegex_matches_shape prev w post :
  ssnShaped w = true ->
  wordBefore prev = false ->
  wordAhead post = false ->
  matchFrom ssnRegex prev (w ++ post) accept = true.
Proof.
  intros Hw Hprev Hpost.
  destruct (ssnShaped_inv w Hw)
    as (a & b & c & d & e & f & g & h & i & -> & Hd).
  repeat match goal with
         | H : Forall _ (_ :: _) |- _ => inversion H; subst; clear H
         end.
  unfold ssnRegex, seq, digit, chr. simpl.
  rewrite Hprev, Hpost.
  repeat match goal with
         | H : is_digit ?x = true |- _ =>
             rewrite ?H, ?(digit_is_word x H); clear H
         end.
  reflexivity.
Qed.

Lemma detect_ssn text :
  test ssnRegex text = true -> In "SSN"%string (detect text).
Proof.
  intros H. unfold detect, patterns. cbn [filter Pattern.regex].
  rewrite H. cbn [map Pattern.type]. now left.
Qed.

Lemma ssn_ends_nonspace w :
  ssnShaped w = true ->
  exists a mid z, w = a :: mid ++ [z]
                  /\ is_space a = false /\ is_space z = false.
Proof.
  intros Hw.
  destruct (ssnShaped_inv w Hw)
    as (a & b & c & d & e & f & g & h & i & -> & Hd).
  exists a, [b; c; 45%N; d; e; 45%N; f; g; h], i.
  rewrite Forall_forall in Hd.
  repeat split; apply digit_not_space, Hd; simpl; tauto.
Qed.

(** C1, as the code has it.  The page does not rewrite the text it
    sends.  For every input that contains an SSN-shaped word standing
    between word boundaries (no letter, digit or underscore next to it),
    the guard's scan reports "SSN" and fires [onPIIDetected]; and when
    that input is sent, [send_message] receives the trimmed input itself,
    in which the SSN still stands, the same text being appended to the
    log as the user message. *)
Theorem ssn_is_flagged_and_sent_as_typed :
  forall (pre ssn post : jsstring) (now : Z) (app : App.t),
    ssnShaped ssn = true ->
    wordBefore (lastOf pre) = false ->
    wordAhead post = false ->
    App.message app = pre ++ ssn ++ post ->
    App.isLoading app = false ->
    In "SSN"%string (detect (App.message app))
    /\ snd (PIIGuard_effect (App.message app)) = onPIIDetected
    /\ exists (app1 : App.t) (call : Invoke.t),
         handleSendMessage_begin now app = Some (app1, call)
         /\ Invoke.message call = trim (App.message app)
         /\ includes (Invoke.message call) ssn = true
         /\ messages (App.store app1)
            = messages (App.store app)
              ++ [ {| Message.role := user;
                      Message.content := trim (App.message app);
                      Message.timestamp := now |} ].
Proof.
  intros pre ssn post now app Hssn Hpre Hpost Hmsg Hload.
  assert (Hin : In "SSN"%string (detect (App.message app))).
  { rewrite Hmsg. apply detect_ssn, test_at_position.
    now apply ssnRegex_matches_shape. }
  destruct (ssn_ends_nonspace ssn Hssn) as (a & mid & z & Hw & Ha & Hz).
  assert (Htrim : trim (App.message app)
                  = trimStart pre ++ ssn ++ trimEnd post).
  { rewrite Hmsg, Hw. now apply trim_around. }
  split; [exact Hin|]. split.
  - unfold PIIGuard_effect. simpl.
    destruct (detect (App.message app)); [destruct Hin | reflexivity].
  - eexists; eexists. split.
    + apply handleSendMessage_begin_proceeds; [|exact Hload].
      rewrite Htrim, Hw. destruct (trimStart pre); reflexivity.
    + simpl. repeat split. rewrite Htrim. apply includes_app.
Qed.

Lemma ssn_is_flagged_and_sent_as_typed_witness :
  let app := {| App.message := js "my number is 078-05-1120, thanks";
                App.isLoading := false;
                App.store := initialStore 0 |} in
  ssnShaped (js "078-05-1120") = true
  /\ In "SSN"%string (detect (App.message app))
  /\ exists (app1 : App.t) (call : Invoke.t),
       handleSendMessage_begin 3 app = Some (app1, call)
       /\ includes (Invoke.message call) (js "078-05-1120") = true.
Proof.
  cbv zeta.
  destruct (ssn_is_flagged_and_sent_as_typed
              (js "my number is ") (js "078-05-1120") (js ", thanks") 3
              {| App.message := js "my number is 078-05-1120, thanks";
                 App.isLoading := false;
                 App.store := initialStore 0 |}
              eq_refl eq_refl eq_refl eq_refl eq_refl)
    as (Hin & _ & app1 & call & Hsend & _ & Hinc & _).
  split; [reflexivity|]. split; [exact Hin|].
  exists app1, call. split; assumption.
Defined.

(** C1, counterexample to the specified behaviour: for the input
    "SSN: 123-45-6789" the scan reports "SSN", yet the one call the
    backend receives carries the input itself, SSN included, and the log
    stores it too.  And in "x123-45-6789" the same SSN-shaped substring
    follows a letter, so no word boundary precedes it and the scan
    reports nothing. *)
Lemma ssn_reaches_backend_as_typed :
  let text := js "SSN: 123-45-6789" in
  let ssn := js "123-45-6789" in
  let app := {| App.message := text; App.isLoading := false;
                App.store := initialStore 0 |} in
  let done := handleSendMessage (fun _ => inl (js "ok")) 1 2 app in
  ssnShaped ssn = true
  /\ includes text ssn = true
  /\ detect text = ["SSN"%string]
  /\ snd done = [ {| Invoke.message := text;
                     Invoke.modelName := js "llama2-7b" |} ]
  /\ forallb (fun call => includes (Invoke.message call) ssn) (snd done)
     = true
  /\ map Message.content (messages (App.store (fst done))) = [text; js "ok"]
  /\ includes (js "x123-45-6789") ssn = true
  /\ detect (js "x123-45-6789") = [].
Proof. vm_compute. repeat split. Qed.

(** C9: the scan is total and finds nothing in the empty string.
    [detect] is defined by structural recursion on the pattern and on the
    text, with no failing case and no bound on the text: for every
    sequence of code units it returns a list of labels, each label at
    most once and only labels of [patterns], and the effect fires
    [onPIICleared] when that list is empty and [onPIIDetected] otherwise.
    On the empty string the list is empty. *)
Theorem detect_total_and_empty_on_empty :
  detect [] = []
  /\ PIIGuard_effect [] = ([], onPIICleared)
  /\ forall text : jsstring,
       exists (detected : list string) (fired : callback),
         PIIGuard_effect text = (detected, fired)
         /\ detected = detect text
         /\ incl detected (map Pattern.type patterns)
         /\ NoDup detected
         /\ (List.length detected <= List.length patterns)%nat
         /\ fired = match detected with
                    | [] => onPIICleared
                    | _ :: _ => onPIIDetected
                    end.
Proof.
  split; [reflexivity|]. split; [reflexivity|].
  intros text. exists (detect text), (snd (PIIGuard_effect text)).
  split; [reflexivity|]. split; [reflexivity|].
  unfold PIIGuard_effect, detect, patterns.
  cbn [filter Pattern.regex snd].
  destruct (test ssnRegex text), (test emailRegex text),
    (test phoneRegex text), (test creditCardRegex text),
    (test ipAddressRegex text);
    cbn [map Pattern.type List.length Nat.ltb Nat.leb];
    (split; [intros x Hx; simpl in *; tauto|]);
    (split; [repeat constructor; simpl; intuition discriminate|]);
    (split; [simpl; lia | reflexivity]).
Qed.

(** ** Status bands *)

(** *** The order of binary64 values

    The comparison of two binary64 values that stand for real numbers is
    the comparison of those numbers. *)

(** A mantissa of [d] binary digits lies between [2^(d-1)] and [2^d]. *)
Lemma digits2_pos_bounds m :
  (2 ^ (Zpos (digits2_pos m) - 1) <= Zpos m < 2 ^ Zpos (digits2_pos m))%Z.
Proof.
  induction m as [m IH|m IH|]; cbn [digits2_pos].
  - rewrite Pos2Z.inj_succ.
    replace (Z.succ (Zpos (digits2_pos m)) - 1)%Z
      with (Z.succ (Zpos (digits2_pos m) - 1))%Z by lia.
    rewrite !Z.pow_succ_r by lia. lia.
  - rewrite Pos2Z.inj_succ.
    replace (Z.succ (Zpos (digits2_pos m)) - 1)%Z
      with (Z.succ (Zpos (digits2_pos m) - 1))%Z by lia.
    rewrite !Z.pow_succ_r by lia. lia.
  - simpl. lia.
Qed.

(** What validity says of a finite binary64 value: the exponent ranges
    over -1074..971, the mantissa has at most 53 bits, and exactly 53
    unless the value is subnormal (exponent -1074). *)
Lemma bounded_binary64 m e :
  bounded prec emax m e = true ->
  (-1074 <= e <= 971)%Z
  /\ (Zpos m < 2 ^ 53)%Z
  /\ (-1074 < e -> 2 ^ 52 <= Zpos m)%Z.
Proof.
  unfold bounded, canonical_mantissa, fexp, SpecFloat.emin, prec, emax.
  intros H. apply andb_true_iff in H. destruct H as [H1 H2].
  apply Z.eqb_eq in H1. apply Z.leb_le in H2.
  pose proof (digits2_pos_bounds m) as [Hlo Hhi].
  set (d := Zpos (digits2_pos m)) in *.
  assert (Hd : (0 < d)%Z) by (unfold d; lia).
  assert (Hd53 : (d <= 53)%Z) by lia.
  split; [lia|]. split.
  - eapply Z.lt_le_trans; [exact Hhi|]. apply Z.pow_le_mono_r; lia.
  - intros He. assert (d = 53)%Z by lia.
    replace 52%Z with (d - 1)%Z by lia. exact Hlo.
Qed.

Lemma two_power_scaled (e : Z) :
  (-1074 <= e)%Z -> 2 ^ e == inject_Z (2 ^ (e + 1074)) * 2 ^ (-1074).
Proof.
  intros He. rewrite Zpower_Qpower by lia.
  change (inject_Z 2) with 2.
  rewrite <- Qpower_plus by discriminate.
  replace (e + 1074 + -1074)%Z with e by lia. reflexivity.
Qed.

Lemma Qcompare_scaled (a b : Z) (c : Q) :
  0 < c -> (inject_Z a * c ?= inject_Z b * c) = (a ?= b)%Z.
Proof.
  intros Hc. destruct (Z.compare_spec a b) as [E|L|G].
  - subst. apply Qeq_alt. reflexivity.
  - apply Qlt_alt. apply Qmult_lt_compat_r; [exact Hc|].
    rewrite <- Zlt_Qlt. exact L.
  - apply Qgt_alt. apply Qmult_lt_compat_r; [exact Hc|].
    rewrite <- Zlt_Qlt. exact G.
Qed.

(** On valid values the comparison of the specification, by exponent and
    then by mantissa, is the comparison of the magnitudes [m * 2^e]. *)
Lemma magnitude_compare m1 e1 m2 e2 :
  bounded prec emax m1 e1 = true ->
  bounded prec emax m2 e2 = true ->
  (inject_Z (Zpos m1) * 2 ^ e1 ?= inject_Z (Zpos m2) * 2 ^ e2)
  = match (e1 ?= e2)%Z with
    | Lt => Lt
    | Gt => Gt
    | Eq => Pos.compare_cont Eq m1 m2
    end.
Proof.
  intros B1 B2.
  apply bounded_binary64 in B1. destruct B1 as (He1 & Hm1 & Hn1).
  apply bounded_binary64 in B2. destruct B2 as (He2 & Hm2 & Hn2).
  rewrite (two_power_scaled e1), (two_power_scaled e2) by lia.
  rewrite !Qmult_assoc, <- !inject_Z_mult.
  rewrite Qcompare_scaled by (apply Qpower_0_lt; reflexivity).
  change (2 ^ 53)%Z with 9007199254740992%Z in *.
  change (2 ^ 52)%Z with 4503599627370496%Z in *.
  destruct (Z.compare_spec e1 e2) as [E|L|G].
  - subst e2. rewrite <- Zmult_compare_compat_r by (apply Z.lt_gt, Z.pow_pos_nonneg; lia).
    reflexivity.
  - apply Z.compare_lt_iff.
    assert (P : (2 ^ (e2 + 1074) = 2 ^ (e1 + 1074) * 2 ^ (e2 - e1))%Z).
    { rewrite <- Z.pow_add_r by lia. f_equal. lia. }
    assert (X : (0 < 2 ^ (e1 + 1074))%Z) by (apply Z.pow_pos_nonneg; lia).
    assert (Y : (2 ^ 1 <= 2 ^ (e2 - e1))%Z) by (apply Z.pow_le_mono_r; lia).
    change (2 ^ 1)%Z with 2%Z in Y.
    specialize (Hn2 ltac:(lia)). rewrite P. nia.
  - apply Z.compare_gt_iff.
    assert (P : (2 ^ (e1 + 1074) = 2 ^ (e2 + 1074) * 2 ^ (e1 - e2))%Z).
    { rewrite <- Z.pow_add_r by lia. f_equal. lia. }
    assert (X : (0 < 2 ^ (e2 + 1074))%Z) by (apply Z.pow_pos_nonneg; lia).
    assert (Y : (2 ^ 1 <= 2 ^ (e1 - e2))%Z) by (apply Z.pow_le_mono_r; lia).
    change (2 ^ 1)%Z with 2%Z in Y.
    specialize (Hn1 ltac:(lia)). rewrite P. nia.
Qed.

Lemma magnitude_positive m e : 0 < inject_Z (Zpos m) * 2 ^ e.
Proof.
  apply Qmult_lt_0_compat; [reflexivity | apply Qpower_0_lt; reflexivity].
Qed.

Lemma negative_value m e :
  inject_Z (Zneg m) * 2 ^ e == - (inject_Z (Zpos m) * 2 ^ e).
Proof.
  change (inject_Z (Zneg m)) with (- inject_Z (Zpos m)). ring.
Qed.

Lemma Qcompare_opp (a b : Q) : (- a ?= - b) = CompOpp (a ?= b).
Proof.
  destruct (Qcompare_spec a b) as [E|L|G]; cbn [CompOpp].
  - apply Qeq_alt. now rewrite E.
  - apply Qgt_alt. apply Qopp_lt_compat. exact L.
  - apply Qlt_alt. apply Qopp_lt_compat. exact G.
Qed.

(** The comparison of two values that stand for real numbers is the
    comparison of those numbers. *)
Lemma SFcompare_exact f1 f2 q1 q2 :
  SpecFloat.valid_binary prec emax f1 = true -> SpecFloat.valid_binary prec emax f2 = true ->
  SF2Q f1 = Some q1 -> SF2Q f2 = Some q2 ->
  SFcompare f1 f2 = Some (q1 ?= q2).
Proof.
  intros V1 V2 E1 E2.
  destruct f1 as [s1|s1| |s1 m1 e1]; try discriminate;
    destruct f2 as [s2|s2| |s2 m2 e2]; try discriminate;
    cbn [SF2Q] in E1, E2; injection E1 as <-; injection E2 as <-;
    cbn [SFcompare valid_binary] in *.
  - reflexivity.
  - pose proof (magnitude_positive m2 e2) as P.
    f_equal. symmetry. destruct s2.
    + rewrite <- Qgt_alt. rewrite negative_value.
      revert P; generalize (inject_Z (Zpos m2) * 2 ^ e2); intros a P; lra.
    + rewrite <- Qlt_alt. exact P.
  - pose proof (magnitude_positive m1 e1) as P.
    f_equal. symmetry. destruct s1.
    + rewrite <- Qlt_alt. rewrite negative_value.
      revert P; generalize (inject_Z (Zpos m1) * 2 ^ e1); intros a P; lra.
    + rewrite <- Qgt_alt. exact P.
  - pose proof (magnitude_positive m1 e1) as P1.
    pose proof (magnitude_positive m2 e2) as P2.
    f_equal. symmetry. destruct s1, s2.
    + rewrite !negative_value, Qcompare_opp, magnitude_compare by assumption.
      now destruct (e1 ?= e2)%Z.
    + rewrite <- Qlt_alt. rewrite negative_value.
      revert P1 P2. generalize (inject_Z (Zpos m1) * 2 ^ e1).
      generalize (inject_Z (Zpos m2) * 2 ^ e2). intros a b P1 P2. lra.
    + rewrite <- Qgt_alt. rewrite negative_value.
      revert P1 P2. generalize (inject_Z (Zpos m1) * 2 ^ e1).
      generalize (inject_Z (Zpos m2) * 2 ^ e2). intros a b P1 P2. lra.
    + now apply magnitude_compare.
Qed.

(** Hence [<] on binary64 numbers is [<] on what they stand for. *)
Lemma ltb_exact (x y : float) (qx qy : Q) :
  exactValue x = Some qx -> exactValue y = Some qy ->
  ((x <? y)%float = true <-> qx < qy).
Proof.
  intros Ex Ey. rewrite ltb_spec. unfold SFltb.
  rewrite (SFcompare_exact _ _ qx qy (Prim2SF_valid x) (Prim2SF_valid y) Ex Ey).
  rewrite Qlt_alt. destruct (qx ?= qy); split; congruence.
Qed.

Lemma ltb_false_exact (x y : float) (qx qy : Q) :
  exactValue x = Some qx -> exactValue y = Some qy ->
  ((x <? y)%float = false <-> qy <= qx).
Proof.
  intros Ex Ey. pose proof (ltb_exact x y qx qy Ex Ey) as H.
  destruct (x <? y)%float; split; intros H'; try discriminate; try reflexivity.
  - exfalso. assert (qx < qy) by now apply H. lra.
  - destruct (Qlt_le_dec qx qy) as [L|L]; [|exact L].
    apply H in L. discriminate.
Qed.

Lemma SF2Q_defined f :
  (exists q, SF2Q f = Some q)
  \/ f = S754_nan \/ (exists s, f = S754_infinity s).
Proof.
  destruct f as [s|s| |s m e]; cbn; eauto.
Qed.

(** [x <= y] and [y < z] give [x < z], infinities and NaN included (a
    comparison with NaN is false). *)
Lemma SFleb_ltb_trans f1 f2 f3 :
  SpecFloat.valid_binary prec emax f1 = true ->
  SpecFloat.valid_binary prec emax f2 = true ->
  SpecFloat.valid_binary prec emax f3 = true ->
  SFleb f1 f2 = true -> SFltb f2 f3 = true -> SFltb f1 f3 = true.
Proof.
  intros V1 V2 V3.
  destruct (SF2Q_defined f1) as [[q1 E1]|[->|[s1 ->]]];
    destruct (SF2Q_defined f2) as [[q2 E2]|[->|[s2 ->]]];
    destruct (SF2Q_defined f3) as [[q3 E3]|[->|[s3 ->]]];
    unfold SFleb, SFltb;
    try rewrite (SFcompare_exact _ _ _ _ V1 V2 E1 E2);
    try rewrite (SFcompare_exact _ _ _ _ V2 V3 E2 E3);
    try rewrite (SFcompare_exact _ _ _ _ V1 V3 E1 E3).
  1: { destruct (Qcompare_spec q1 q2), (Qcompare_spec q2 q3),
               (Qcompare_spec q1 q3);
       intros; try discriminate; try reflexivity; exfalso; lra. }
  all: intros H1 H2;
    repeat match goal with f : spec_float |- _ => destruct f end;
    try discriminate;
    repeat match goal with s : bool |- _ => destruct s end;
    cbn in H1, H2 |- *; try discriminate; try reflexivity.
Qed.

Lemma leb_ltb_trans (x y z : float) :
  (x <=? y)%float = true -> (y <? z)%float = true -> (x <? z)%float = true.
Proof.
  rewrite leb_spec, !ltb_spec.
  apply SFleb_ltb_trans; apply Prim2SF_valid.
Qed.

(** *** The bands *)

(** Two cut-offs that stand for real numbers split the readings that do
    so into three bands. *)
Lemma bands_between (value lo hi : float) (q qlo qhi : Q) :
  exactValue value = Some q ->
  exactValue lo = Some qlo ->
  exactValue hi = Some qhi ->
  qlo <= qhi ->
  let color := if (value <? lo)%float then "text-green-400"%string
               else if (value <? hi)%float then "text-yellow-400"%string
               else "text-red-400"%string in
  (color = "text-green-400"%string <-> q < qlo)
  /\ (color = "text-yellow-400"%string <-> qlo <= q /\ q < qhi)
  /\ (color = "text-red-400"%string <-> qhi <= q).
Proof.
  intros Ev Elo Ehi Hle color. subst color.
  destruct (value <? lo)%float eqn:A;
    [apply (ltb_exact _ _ _ _ Ev Elo) in A
    | apply (ltb_false_exact _ _ _ _ Ev Elo) in A];
    (destruct (value <? hi)%float eqn:B;
     [apply (ltb_exact _ _ _ _ Ev Ehi) in B
     | apply (ltb_false_exact _ _ _ _ Ev Ehi) in B]);
    repeat split; intros; try discriminate; try reflexivity;
    try lra; exfalso; lra.
Qed.

(** NaN is below no cut-off. *)
Lemma nan_is_red threshold : getStatusColor nan threshold = "text-red-400"%string.
Proof.
  unfold getStatusColor. rewrite !ltb_spec. reflexivity.
Qed.

(** C6: the three bands of [getStatusColor].  The function compares the
    reading with the binary64 products [threshold * 0.6] and
    [threshold * 0.8].  For the thresholds the gauges pass (85, 90, 85 and
    80) these products are exactly 60% and 80% of the threshold, so for
    every reading that is a number the colour is green (nominal) exactly
    when the reading is below 60% of the threshold, yellow (warning)
    exactly when it is at least 60% and below 80% of it, and red (unsafe)
    exactly when it is at least 80% of it; 95 against 85 is red and 40
    against 85 is green; a missing reading is red. *)
Theorem getStatusColor_bands_of_the_gauges :
  forall (g : gauge) (value : float) (q t : Q),
    exactValue value = Some q ->
    exactValue (thresholdOf g) = Some t ->
    (getStatusColor value (thresholdOf g) = "text-green-400"%string
     <-> q < (60 # 100) * t)
    /\ (getStatusColor value (thresholdOf g) = "text-yellow-400"%string
        <-> (60 # 100) * t <= q /\ q < (80 # 100) * t)
    /\ (getStatusColor value (thresholdOf g) = "text-red-400"%string
        <-> (80 # 100) * t <= q)
    /\ getStatusColor 95 (thresholdOf CPU) = "text-red-400"%string
    /\ getStatusColor 40 (thresholdOf CPU) = "text-green-400"%string
    /\ gaugeColor g Undefined = Some "text-red-400"%string.
Proof.
  intros g value q t Ev Et.
  assert (C : exists lo hi qlo qhi,
             (thresholdOf g * binary64_0_6)%float = lo
             /\ (thresholdOf g * binary64_0_8)%float = hi
             /\ exactValue lo = Some qlo /\ exactValue hi = Some qhi
             /\ qlo == (60 # 100) * t /\ qhi == (80 # 100) * t).
  { destruct g; cbn [thresholdOf] in Et |- *; vm_compute in Et;
      injection Et as <-;
      do 4 eexists;
      (split; [vm_compute; reflexivity|]);
      (split; [vm_compute; reflexivity|]);
      (split; [vm_compute; reflexivity|]);
      (split; [vm_compute; reflexivity|]);
      split; vm_compute; reflexivity. }
  destruct C as (lo & hi & qlo & qhi & Elo & Ehi & Vlo & Vhi & Qlo & Qhi).
  assert (Hpos : 0 <= t).
  { destruct g; cbn [thresholdOf] in Et; vm_compute in Et;
      injection Et as <-; discriminate. }
  assert (Hle : qlo <= qhi) by lra.
  pose proof (bands_between value lo hi q qlo qhi Ev Vlo Vhi Hle) as H.
  cbv zeta in H. unfold getStatusColor. rewrite Elo, Ehi.
  rewrite <- Qlo, <- Qhi.
  destruct H as (H1 & H2 & H3).
  split; [exact H1|]. split; [exact H2|]. split; [exact H3|].
  split; [reflexivity|]. split; [reflexivity|].
  destruct g; cbn [gaugeColor toNumber]; now rewrite nan_is_red.
Qed.

Lemma getStatusColor_bands_of_the_gauges_witness :
  exists q t : Q,
    exactValue 95 = Some q /\ exactValue (thresholdOf CPU) = Some t
    /\ (getStatusColor 95 (thresholdOf CPU) = "text-red-400"%string
        <-> (80 # 100) * t <= q).
Proof.
  eexists. eexists.
  split; [vm_compute; reflexivity|]. split; [vm_compute; reflexivity|].
  apply (getStatusColor_bands_of_the_gauges CPU 95 _ _ eq_refl eq_refl).
Defined.

(** C6, counterexample to the specified behaviour: against the threshold
    3 the first cut-off the engine computes, 3 * 0.6, is the double
    1.7999999999999998 and not 1.8.  A reading of that value is below 60%
    of the threshold, yet it is not below the cut-off, and the colour is
    yellow. *)
Lemma getStatusColor_rounds_the_cutoff :
  exists q t : Q,
    exactValue 0x1.cccccccccccccp+0 = Some q
    /\ exactValue 3 = Some t
    /\ q < (60 # 100) * t
    /\ (3 * binary64_0_6)%float = 0x1.cccccccccccccp+0%float
    /\ getStatusColor 0x1.cccccccccccccp+0 3 = "text-yellow-400"%string.
Proof.
  eexists. eexists.
  split; [vm_compute; reflexivity|]. split; [vm_compute; reflexivity|].
  repeat split; reflexivity.
Qed.

(** ** Further properties of the handlers *)

(** X1: a reply of the backend is appended as an assistant message.  When a
    send goes out and [send_message] resolves with [response], the log
    gains the user message and then the reply, exactly one call reaches
    the backend, carrying the trimmed input and the selected model, the
    input box is emptied and [isLoading] is false again. *)
Theorem backend_reply_becomes_assistant_message :
  forall (backend : Invoke.t -> settled) (t1 t2 : Z) (app : App.t)
         (response : jsstring),
    isEmpty (trim (App.message app)) = false ->
    App.isLoading app = false ->
    backend {| Invoke.message := trim (App.message app);
               Invoke.modelName := selectedModel (App.store app) |}
    = inl response ->
    let done := handleSendMessage backend t1 t2 app in
    messages (App.store (fst done))
    = messages (App.store app)
      ++ [ {| Message.role := user;
              Message.content := trim (App.message app);
              Message.timestamp := t1 |};
           {| Message.role := assistant;
              Message.content := response;
              Message.timestamp := t2 |} ]
    /\ snd done = [ {| Invoke.message := trim (App.message app);
                       Invoke.modelName := selectedModel (App.store app) |} ]
    /\ App.message (fst done) = []
    /\ App.isLoading (fst done) = false.
Proof.
  intros backend t1 t2 app response Hne Hload Hok done.
  subst done. unfold handleSendMessage.
  rewrite (handleSendMessage_begin_proceeds t1 app Hne Hload), Hok.
  simpl. rewrite <- app_assoc. repeat split.
Qed.

Lemma backend_reply_becomes_assistant_message_witness :
  let app := {| App.message := js "hello"; App.isLoading := false;
                App.store := initialStore 0 |} in
  let done := handleSendMessage (fun _ => inl (js "hi!")) 1 2 app in
  map Message.content (messages (App.store (fst done)))
  = [js "hello"; js "hi!"]
  /\ map Message.role (messages (App.store (fst done))) = [user; assistant].
Proof.
  pose proof (backend_reply_becomes_assistant_message
                (fun _ => inl (js "hi!")) 1 2
                {| App.message := js "hello"; App.isLoading := false;
                   App.store := initialStore 0 |} (js "hi!")
                eq_refl eq_refl eq_refl) as H.
  cbv zeta in H. destruct H as (Hlog & _).
  cbv zeta. rewrite Hlog. split; reflexivity.
Defined.

(** X2: a blank input, or a send while another one is in flight, does
    nothing: the state is unchanged and the backend is not called. *)
Theorem blank_or_busy_send_is_ignored :
  forall (backend : Invoke.t -> settled) (t1 t2 : Z) (app : App.t),
    isEmpty (trim (App.message app)) || App.isLoading app = true ->
    handleSendMessage backend t1 t2 app = (app, []).
Proof.
  intros backend t1 t2 app H.
  unfold handleSendMessage, handleSendMessage_begin. now rewrite H.
Qed.

Lemma blank_or_busy_send_is_ignored_witness :
  let app := {| App.message := js "   "; App.isLoading := false;
                App.store := initialStore 0 |} in
  handleSendMessage (fun _ => inl (js "unused")) 1 2 app = (app, []).
Proof.
  apply (blank_or_busy_send_is_ignored (fun _ => inl (js "unused")) 1 2
           {| App.message := js "   "; App.isLoading := false;
              App.store := initialStore 0 |}).
  reflexivity.
Defined.

(** X3: a new chat started at a clock reading that no listed conversation's
    id was printed from gets an id no listed conversation has, and the
    pointer then resolves to the new conversation alone. *)
Theorem handleNewChat_fresh_id_on_new_reading :
  forall (t_id t_stamp : Z) (app : App.t) (readings : list Z),
    conversationIds (App.store app) = map toString readings ->
    ~ In t_id readings ->
    let store' := App.store (handleNewChat t_id t_stamp app) in
    ~ In (toString t_id) (conversationIds (App.store app))
    /\ resolve (currentConversationId store') store'
       = [ {| Conversation.id := toString t_id;
              Conversation.title := js "New Chat";
              Conversation.timestamp := t_stamp;
              Conversation.messages := [] |} ].
Proof.
  intros t_id t_stamp app readings Hids Hnew store'.
  destruct (handleNewChat_fresh_on_new_reading t_id t_stamp app readings
              Hids Hnew) as [Hfresh _].
  split; [exact Hfresh|].
  apply resolve_nil_iff in Hfresh.
  subst store'. unfold resolve in *. simpl.
  rewrite filter_app, Hfresh. simpl.
  now rewrite jsstring_eqb_refl.
Qed.

Lemma handleNewChat_fresh_id_on_new_reading_witness :
  let app := {| App.message := []; App.isLoading := false;
                App.store := initialStore 0 |} in
  let store' := App.store (handleNewChat 1700000000000 1700000000001 app) in
  map Conversation.id (resolve (currentConversationId store') store')
  = [js "1700000000000"].
Proof.
  assert (Hnew : ~ In 1700000000000%Z [1%Z])
    by (intros [H|[]]; discriminate H).
  destruct (handleNewChat_fresh_id_on_new_reading
              1700000000000 1700000000001
              {| App.message := []; App.isLoading := false;
                 App.store := initialStore 0 |} [1%Z] eq_refl Hnew)
    as [_ H].
  cbv zeta. rewrite H. reflexivity.
Defined.

(** The guard on the spec's e-mail example: the scan of
    "Contact me at john@example.com" reports "Email" and nothing else,
    and the callback fired is [onPIIDetected]. *)
Theorem detect_email_example :
  PIIGuard_effect (js "Contact me at john@example.com")
  = (["Email"%string], onPIIDetected).
Proof. vm_compute. reflexivity. Qed.

(* ================================================================== *)
(** * Further properties of the code *)

(** ** Algebra of the store operations *)

(** X4: store operations that write different fields commute.  For any
    two operations of [appStore.ts] whose written fields differ, the
    state after both is the same in either order. *)
Theorem store_operations_commute :
  forall (a b : action) (state : AppStore),
    writes a <> writes b ->
    step a (step b state) = step b (step a state).
Proof.
  intros a b state H.
  destruct a, b; simpl in *; try reflexivity; exfalso; apply H; reflexivity.
Qed.

Lemma store_operations_commute_witness :
  let m := {| Message.role := user; Message.content := js "hi";
              Message.timestamp := 1 |} in
  addMessage m (setSelectedModel (js "phi-2") (initialStore 0))
  = setSelectedModel (js "phi-2") (addMessage m (initialStore 0)).
Proof.
  apply (store_operations_commute
           (AddMessage {| Message.role := user; Message.content := js "hi";
                          Message.timestamp := 1 |})
           (SetSelectedModel (js "phi-2")) (initialStore 0)).
  discriminate.
Defined.



Lemma run_cons a actions s : run (a :: actions) s = run actions (step a s).
Proof. reflexivity. Qed.

(** X6: the store never drops a conversation or a document.  After any
    sequence of store operations the conversation list is the old list
    followed by the conversations added, in the order of the calls, and
    likewise for the documents: nothing is removed, replaced or
    reordered. *)
Theorem store_keeps_conversations_and_documents :
  forall (actions : list action) (state : AppStore),
    conversations (run actions state)
    = conversations state ++ conversationsAdded actions
    /\ documents (run actions state)
       = documents state ++ documentsAdded actions.
Proof.
  induction actions as [|a actions IH]; intros state.
  - simpl. now rewrite !app_nil_r.
  - rewrite run_cons. destruct (IH (step a state)) as [Hc Hd].
    rewrite Hc, Hd. unfold conversationsAdded, documentsAdded.
    destruct a; simpl; rewrite <- ?app_assoc; split; reflexivity.
Qed.

(** ** File names and types *)

Lemma split_nonempty isSep s : split isSep s <> [].
Proof.
  destruct s as [|c s]; simpl; [discriminate|].
  destruct (isSep c); [discriminate|].
  destruct (split isSep s); discriminate.
Qed.

Lemma pop_cons seg segs :
  segs <> [] -> pop (seg :: segs) = pop segs.
Proof. destruct segs; [congruence | reflexivity]. Qed.

Lemma split_free isSep s : free isSep s = true -> split isSep s = [s].
Proof.
  unfold free. induction s as [|c s IH]; simpl; [reflexivity|].
  rewrite andb_true_iff, negb_true_iff. intros [Hc Hs].
  now rewrite Hc, (IH Hs).
Qed.

Lemma split_two_segments isSep c b : forall a,
  isSep c = true ->
  exists seg seg2 segs, split isSep (a ++ c :: b) = seg :: seg2 :: segs.
Proof.
  intros a Hc. induction a as [|x a IH]; simpl.
  - rewrite Hc. destruct (split isSep b) as [|seg2 segs] eqn:E;
      [exfalso; eapply split_nonempty; eauto|].
    now exists [], seg2, segs.
  - destruct IH as (seg & seg2 & segs & ->).
    destruct (isSep x).
    + now exists [], seg, (seg2 :: segs).
    + now exists (x :: seg), seg2, segs.
Qed.

(** What follows the last separator is what [pop] returns. *)
Lemma pop_split_after_separator isSep c b : forall a,
  isSep c = true ->
  pop (split isSep (a ++ c :: b)) = pop (split isSep b).
Proof.
  intros a Hc. induction a as [|x a IH]; simpl.
  - rewrite Hc. apply pop_cons, split_nonempty.
  - destruct (split_two_segments isSep c b a Hc) as (seg & seg2 & segs & E).
    rewrite E in *. destruct (isSep x).
    + rewrite pop_cons by discriminate. exact IH.
    + rewrite <- IH. reflexivity.
Qed.

Lemma last_separator isSep s :
  free isSep s = true
  \/ exists a c b, s = a ++ c :: b /\ isSep c = true /\ free isSep b = true.
Proof.
  unfold free. induction s as [|x s IH]; [now left|].
  destruct IH as [Hs | (a & c & b & -> & Hc & Hb)].
  - destruct (isSep x) eqn:Ex.
    + right. exists [], x, s. auto.
    + left. simpl. now rewrite Ex, Hs.
  - right. exists (x :: a), c, b. auto.
Qed.

Lemma pop_split_free isSep s : free isSep (pop (split isSep s)) = true.
Proof.
  destruct (last_separator isSep s) as [Hs | (a & c & b & -> & Hc & Hb)].
  - now rewrite (split_free _ _ Hs).
  - rewrite (pop_split_after_separator _ _ _ _ Hc), (split_free _ _ Hb).
    exact Hb.
Qed.

Lemma document_free : free isPathSeparator (js "document") = true.
Proof. reflexivity. Qed.

(** X7: the uploaded file's display name.  Whatever path the dialog
    returns, [fileNameOf] is not empty and contains neither a slash nor
    a backslash; for a path ending in a separator, and for the empty
    path, it is "document"; for a path without separators it is the path
    itself; and for a directory, a separator and a non-empty name without
    separators it is that name. *)
Theorem fileNameOf_is_last_path_segment :
  forall (dir name : jsstring) (sep : code_unit),
    isPathSeparator sep = true ->
    free isPathSeparator name = true ->
    fileNameOf (dir ++ sep :: name)
    = (if isEmpty name then js "document" else name)
    /\ fileNameOf name = (if isEmpty name then js "document" else name)
    /\ (forall selected : jsstring,
          isEmpty (fileNameOf selected) = false
          /\ free isPathSeparator (fileNameOf selected) = true).
Proof.
  intros dir name sep Hsep Hname. unfold fileNameOf.
  rewrite (pop_split_after_separator _ _ _ _ Hsep), (split_free _ _ Hname).
  repeat split; try reflexivity.
  - destruct (isEmpty (pop (split isPathSeparator selected))) eqn:E;
      [reflexivity | exact E].
  - destruct (isEmpty (pop (split isPathSeparator selected)));
      [reflexivity | apply pop_split_free].
Qed.

Lemma fileNameOf_is_last_path_segment_witness :
  fileNameOf (js "C:\Users\me\brief.final.pdf") = js "brief.final.pdf"
  /\ fileNameOf (js "/home/me/") = js "document".
Proof.
  split.
  - apply (fileNameOf_is_last_path_segment
             (js "C:\Users\me") (js "brief.final.pdf") 92%N);
      reflexivity.
  - apply (fileNameOf_is_last_path_segment (js "/home/me") [] 47%N);
      reflexivity.
Defined.

(** X8: the file type sent to the backend is whatever follows the last
    dot of the whole path.  It never contains a dot; for [base.ext] with
    no dot in [ext] it is [ext]; and for a path without any dot it is
    the entire path, so that a dot in a directory name yields a "type"
    that runs across the separator. *)
Theorem fileTypeOf_is_text_after_last_dot :
  forall (base ext : jsstring),
    free isDot ext = true ->
    fileTypeOf (base ++ [46%N] ++ ext) = ext
    /\ fileTypeOf ext = ext
    /\ (forall selected : jsstring,
          free isDot (fileTypeOf selected) = true).
Proof.
  intros base ext Hext. unfold fileTypeOf.
  pose proof (pop_split_after_separator isDot 46%N ext base eq_refl) as E.
  split; [exact (eq_trans E (f_equal pop (split_free _ _ Hext)))|].
  rewrite (split_free _ _ Hext). split; [reflexivity|].
  intros selected. apply pop_split_free.
Qed.

Lemma fileTypeOf_is_text_after_last_dot_witness :
  fileTypeOf (js "/home/me/notes.tar.gz") = js "gz"
  /\ fileTypeOf (js "/home/me.d/README")
     = js "d/README".
Proof.
  split.
  - apply (fileTypeOf_is_text_after_last_dot (js "/home/me/notes.tar")
             (js "gz")); reflexivity.
  - apply (fileTypeOf_is_text_after_last_dot (js "/home/me")
             (js "d/README")); reflexivity.
Defined.

(** ** Uploading a file *)

(** X9: what an upload can and cannot do.  Whatever the dialog and the
    backend answer, a run of [handleFileUpload] leaves every store field
    but [messages] as it was (in particular no document is added to
    [documents] and the conversations are untouched), keeps the text in
    the input box, ends with [isLoading] false, appends at most two
    messages, all with the system role, after the existing ones, and
    calls [process_document] at most once. *)
Theorem handleFileUpload_only_appends_notices :
  forall (dialog : dialogSettled)
         (backend : ProcessDocument.t -> documentSettled)
         (t1 t2 : Z) (app : App.t),
    let done := handleFileUpload dialog backend t1 t2 app in
    unchangedExcept Fmessages (App.store app) (App.store (fst done))
    /\ App.message (fst done) = App.message app
    /\ App.isLoading (fst done) = false
    /\ (List.length (snd done) <= 1)%nat
    /\ exists notices : list Message.t,
         messages (App.store (fst done))
         = messages (App.store app) ++ notices
         /\ (List.length notices <= 2)%nat
         /\ Forall (fun m => Message.role m = system) notices.
Proof.
  intros dialog backend t1 t2 app. unfold handleFileUpload.
  assert (Hsys : forall content now,
             Message.role (systemMessage content now) = system)
    by reflexivity.
  destruct dialog as [[selected|]|error]; simpl;
    [destruct (isEmpty selected); simpl|..];
    (split; [frame|]); (split; [reflexivity|]); (split; [reflexivity|]);
    (split; [simpl; lia|]).
  - exists []. rewrite app_nil_r. repeat split; auto.
  - eexists [_; _]. rewrite <- app_assoc. repeat split; auto.
  - exists []. rewrite app_nil_r. repeat split; auto.
  - eexists [_]. repeat split; auto.
Qed.

(** X10: a processed upload.  When a non-empty path is chosen and
    [process_document] resolves, the log gains the notice
    "(paperclip) Uploaded: name" and then "(check) Document processed:
    name", [name] being the path's last segment; the backend is called
    once, with the whole path and the text after its last dot; the
    document it returns is dropped. *)
Theorem handleFileUpload_processed :
  forall (selected : jsstring)
         (backend : ProcessDocument.t -> documentSettled)
         (t1 t2 : Z) (app : App.t) (document : Document.t),
    isEmpty selected = false ->
    backend {| ProcessDocument.filePath := selected;
               ProcessDocument.fileType := fileTypeOf selected |}
    = inl document ->
    let done := handleFileUpload (inl (Some selected)) backend t1 t2 app in
    messages (App.store (fst done))
    = messages (App.store app)
      ++ [ systemMessage (uploadedNotice (fileNameOf selected)) t1;
           systemMessage (processedNotice (fileNameOf selected)) t2 ]
    /\ snd done = [ {| ProcessDocument.filePath := selected;
                       ProcessDocument.fileType := fileTypeOf selected |} ]
    /\ documents (App.store (fst done)) = documents (App.store app).
Proof.
  intros selected backend t1 t2 app document Hsel Hok.
  unfold handleFileUpload. simpl. rewrite Hsel. simpl. rewrite Hok.
  rewrite <- app_assoc. repeat split.
Qed.

Lemma handleFileUpload_processed_witness :
  let app := {| App.message := js "draft"; App.isLoading := false;
                App.store := initialStore 0 |} in
  let document := {| Document.id := js "d1"; Document.filename := js "a.txt";
                     Document.content := js "text";
                     Document.pii_removed := true;
                     Document.metadata := [] |} in
  let done := handleFileUpload (inl (Some (js "/tmp/a.txt")))
                               (fun _ => inl document) 1 2 app in
  map Message.content (messages (App.store (fst done)))
  = [uploadedNotice (js "a.txt"); processedNotice (js "a.txt")]
  /\ map ProcessDocument.fileType (snd done) = [js "txt"]
  /\ documents (App.store (fst done)) = [].
Proof.
  cbv zeta.
  destruct (handleFileUpload_processed (js "/tmp/a.txt")
              (fun _ => inl {| Document.id := js "d1";
                               Document.filename := js "a.txt";
                               Document.content := js "text";
                               Document.pii_removed := true;
                               Document.metadata := [] |}) 1 2
              {| App.message := js "draft"; App.isLoading := false;
                 App.store := initialStore 0 |}
              {| Document.id := js "d1"; Document.filename := js "a.txt";
                 Document.content := js "text"; Document.pii_removed := true;
                 Document.metadata := [] |} eq_refl eq_refl)
    as (Hlog & Hcalls & Hdocs).
  rewrite Hlog, Hcalls, Hdocs. repeat split.
Defined.

(** X11: a failed upload.  When [process_document] rejects with
    [error], the log gains the "Uploaded" notice and then the system
    message "Failed to process document: error"; when the dialog itself
    rejects, it gains that failure message alone and the backend is not
    called.  Either way [isLoading] is false afterwards. *)
Theorem handleFileUpload_failed :
  forall (selected : jsstring)
         (backend : ProcessDocument.t -> documentSettled)
         (t1 t2 : Z) (app : App.t) (error : jsstring),
    isEmpty selected = false ->
    backend {| ProcessDocument.filePath := selected;
               ProcessDocument.fileType := fileTypeOf selected |}
    = inr error ->
    let done := handleFileUpload (inl (Some selected)) backend t1 t2 app in
    let rejected := handleFileUpload (inr error) backend t1 t2 app in
    messages (App.store (fst done))
    = messages (App.store app)
      ++ [ systemMessage (uploadedNotice (fileNameOf selected)) t1;
           systemMessage (failedNotice error) t2 ]
    /\ App.isLoading (fst done) = false
    /\ messages (App.store (fst rejected))
       = messages (App.store app) ++ [ systemMessage (failedNotice error) t1 ]
    /\ snd rejected = []
    /\ App.isLoading (fst rejected) = false.
Proof.
  intros selected backend t1 t2 app error Hsel Hfail.
  unfold handleFileUpload. simpl. rewrite Hsel. simpl. rewrite Hfail.
  rewrite <- app_assoc. repeat split.
Qed.

Lemma handleFileUpload_failed_witness :
  let app := {| App.message := []; App.isLoading := false;
                App.store := initialStore 0 |} in
  let done := handleFileUpload (inl (Some (js "/tmp/a.txt")))
                               (fun _ => inr (js "unreadable")) 1 2 app in
  map Message.content (messages (App.store (fst done)))
  = [uploadedNotice (js "a.txt");
     js "Failed to process document: unreadable"].
Proof.
  cbv zeta.
  destruct (handleFileUpload_failed (js "/tmp/a.txt")
              (fun _ => inr (js "unreadable")) 1 2
              {| App.message := []; App.isLoading := false;
                 App.store := initialStore 0 |} (js "unreadable")
              eq_refl eq_refl) as (Hlog & _).
  rewrite Hlog. reflexivity.
Defined.

(** X12: a cancelled dialog.  When the dialog returns no path (or an
    empty one), nothing is appended, the backend is not called and the
    store is unchanged; [isLoading] is nevertheless set to false, whatever
    it was, so a send still awaiting its answer no longer blocks the
    input. *)
Theorem handleFileUpload_cancelled :
  forall (dialog : dialogSettled)
         (backend : ProcessDocument.t -> documentSettled)
         (t1 t2 : Z) (app : App.t),
    dialog = inl None \/ dialog = inl (Some []) ->
    handleFileUpload dialog backend t1 t2 app = (setIsLoading false app, [])
    /\ App.store (setIsLoading false app) = App.store app
    /\ (forall (text : jsstring) (now : Z),
          isEmpty (trim text) = false ->
          handleSendMessage_begin now
            (setMessage text (setIsLoading false app)) <> None).
Proof.
  intros dialog backend t1 t2 app [-> | ->]; repeat split;
    intros text now Htext;
    rewrite (handleSendMessage_begin_proceeds now
               (setMessage text (setIsLoading false app)) Htext eq_refl);
    discriminate.
Qed.

Lemma handleFileUpload_cancelled_witness :
  let busy := {| App.message := []; App.isLoading := true;
                 App.store := initialStore 0 |} in
  App.isLoading
    (fst (handleFileUpload (inl None) (fun _ => inr []) 1 2 busy)) = false.
Proof.
  cbv zeta.
  destruct (handleFileUpload_cancelled (inl None) (fun _ => inr []) 1 2
              {| App.message := []; App.isLoading := true;
                 App.store := initialStore 0 |} (or_introl eq_refl))
    as (H & _).
  rewrite H. reflexivity.
Defined.

(** ** What the page never does, and what its runs add up to *)

Lemma handle_keeps_untouched e page :
  untouched (storeOf page) -> untouched (storeOf (handle e page)).
Proof.
  unfold untouched, storeOf. destruct page as [app sel].
  intros (Hd & Hp & Hh & Hc).
  destruct e; simpl in *; auto.
  - unfold handleSendMessage_begin.
    destruct (isEmpty (trim (App.message app)) || App.isLoading app);
      simpl; auto.
  - destruct result; simpl; auto.
  - repeat split; auto. apply Forall_app. split; auto.
  - unfold handleConversationClick.
    destruct (nth_error (conversations (App.store app)) n); simpl; auto.
Qed.

Lemma runEvents_keeps_untouched events : forall page,
  untouched (storeOf page) -> untouched (storeOf (runEvents events page)).
Proof.
  induction events as [|e events IH]; intros page Hp; simpl; auto.
  apply IH. now apply handle_keeps_untouched.
Qed.

Lemma runEvents_cons e events page :
  runEvents (e :: events) page = runEvents events (handle e page).
Proof. reflexivity. Qed.

(** X13: what no handler of the page does.  In every state the page
    reaches from its initial one, through any interleaving of its
    handlers, the store's [documents] list is empty, [isProcessing] is
    false and [systemHealth] is null, and every conversation still has an
    empty [messages] list and the title "New Chat": uploads register no
    document and chats are never written back to their conversation. *)
Theorem page_never_writes_documents_or_conversation_logs :
  forall (now : Z) (events : list event),
    let s := storeOf (runEvents events (initialPage now)) in
    documents s = []
    /\ isProcessing s = false
    /\ systemHealth s = None
    /\ Forall (fun c => Conversation.messages c = []
                        /\ Conversation.title c = js "New Chat")
              (conversations s).
Proof.
  intros now events s.
  assert (H : untouched s).
  { apply runEvents_keeps_untouched. repeat split. repeat constructor. }
  destruct H as (Hd & Hp & Hh & Hc).
  repeat split; auto.
Qed.

Lemma runEvents_ids events : forall page,
  conversationIds (storeOf (runEvents events page))
  = conversationIds (storeOf page) ++ map toString (chatReadings events).
Proof.
  unfold conversationIds, storeOf.
  induction events as [|e events IH]; intros [app sel].
  - simpl. now rewrite app_nil_r.
  - rewrite runEvents_cons, IH. unfold chatReadings.
    destruct e; simpl; try reflexivity.
    + unfold handleSendMessage_begin.
      destruct (isEmpty (trim (App.message app)) || App.isLoading app);
        reflexivity.
    + destruct result; reflexivity.
    + now rewrite map_app, <- app_assoc.
    + unfold handleConversationClick.
      destruct (nth_error (conversations (App.store app)) n); reflexivity.
Qed.

Lemma toString_1 : toString 1 = js "1".
Proof. reflexivity. Qed.

(** X14: the conversation ids of a run.  After any run of the page the
    conversation list holds the bootstrap conversation "1" followed by
    one conversation per new chat, whose id is the decimal print of the
    clock reading taken for it, in order; so the ids are pairwise
    distinct exactly when those readings are pairwise distinct and none
    of them is 1. *)
Theorem conversation_ids_are_the_clock_readings :
  forall (now : Z) (events : list event),
    let s := storeOf (runEvents events (initialPage now)) in
    conversationIds s = map toString (1%Z :: chatReadings events)
    /\ List.length (conversations s) = S (List.length (chatReadings events))
    /\ (NoDup (conversationIds s) <-> NoDup (1%Z :: chatReadings events)).
Proof.
  intros now events s. subst s.
  assert (E : conversationIds (storeOf (runEvents events (initialPage now)))
              = map toString (1%Z :: chatReadings events)).
  { rewrite runEvents_ids. reflexivity. }
  split; [exact E|]. split.
  - unfold conversationIds in E.
    rewrite <- (length_map Conversation.id), E, length_map. reflexivity.
  - rewrite E. split.
    + apply NoDup_map_inv.
    + apply NoDup_map_NoDup_ForallPairs.
      intros a b _ _. apply toString_inj.
Qed.

Lemma last_cons_default {A : Type} (l : list A) : forall x d,
  last (x :: l) d = last l x.
Proof.
  induction l as [|y l IH]; intros x d; [reflexivity|].
  change (last (x :: y :: l) d) with (last (y :: l) d).
  now rewrite !IH.
Qed.

Lemma runEvents_selectedModel events : forall page,
  selectedModel (storeOf (runEvents events page))
  = last (modelsSelected events) (selectedModel (storeOf page)).
Proof.
  unfold storeOf.
  induction events as [|e events IH]; intros [app sel]; [reflexivity|].
  rewrite runEvents_cons, IH. unfold modelsSelected.
  destruct e; simpl; try reflexivity.
  - unfold handleSendMessage_begin.
    destruct (isEmpty (trim (App.message app)) || App.isLoading app);
      reflexivity.
  - destruct result; reflexivity.
  - unfold handleConversationClick.
    destruct (nth_error (conversations (App.store app)) n); reflexivity.
  - (* ModelSelect *)
    fold (modelsSelected events). symmetry. apply last_cons_default.
Qed.

(** X15: the selected model of a run.  After any run of the page the
    selected model is the one clicked last in the model menu, and
    "llama2-7b" when none was clicked: sending, uploading, starting or
    finishing a download, reloading the model list and switching chats
    never change the selection, and a reloaded list that lacks the
    selected model does not reset it. *)
Theorem selected_model_is_the_last_one_clicked :
  forall (now : Z) (events : list event),
    selectedModel (storeOf (runEvents events (initialPage now)))
    = last (modelsSelected events) (js "llama2-7b").
Proof.
  intros now events. apply runEvents_selectedModel.
Qed.

Lemma handleSendMessage_begin_cases now app :
  handleSendMessage_begin now app = None
  \/ exists app1 call,
       handleSendMessage_begin now app = Some (app1, call)
       /\ App.isLoading app = false /\ App.isLoading app1 = true.
Proof.
  unfold handleSendMessage_begin.
  destruct (isEmpty (trim (App.message app))); simpl; [now left|].
  destruct (App.isLoading app); simpl; [now left|].
  right. eexists; eexists. repeat split.
Qed.

Lemma isLoading_handle e page :
  match e with
  | SendBegin _ | SendSettle _ _ | UploadLoading _ => True
  | _ => App.isLoading (Page.app (handle e page))
         = App.isLoading (Page.app page)
  end.
Proof.
  destruct page as [app sel]. destruct e; simpl; auto.
  unfold handleConversationClick.
  destruct (nth_error (conversations (App.store app)) n); reflexivity.
Qed.

Lemma track_single_flight events : forall page n page' n',
  existsb isUploadLoading events = false ->
  (n <= 1)%nat ->
  App.isLoading (Page.app page) = (n =? 1)%nat ->
  track events page n = Some (page', n') ->
  page' = runEvents events page
  /\ (n' <= 1)%nat
  /\ App.isLoading (Page.app page') = (n' =? 1)%nat.
Proof.
  induction events as [|e events IH]; intros page n page' n' Hup Hn Hl Ht.
  - simpl in Ht. injection Ht as <- <-. auto.
  - simpl in Hup. apply orb_false_iff in Hup. destruct Hup as [He Hup].
    rewrite runEvents_cons.
    pose proof (isLoading_handle e page) as Hsame.
    destruct e; try discriminate He; cbn [track] in Ht;
      try (apply (IH _ _ _ _ Hup Hn) in Ht; [exact Ht | congruence]).
    + (* SendBegin *)
      destruct page as [app sel]. cbn [Page.app] in *.
      destruct (handleSendMessage_begin_cases now app)
        as [E | (app1 & call & E & Hfree & Hbusy)].
      * rewrite E in Ht.
        apply (IH _ _ _ _ Hup Hn) in Ht; [exact Ht|].
        simpl. rewrite E. exact Hl.
      * rewrite E in Ht.
        assert (n = 0)%nat.
        { rewrite Hfree in Hl.
          destruct n as [|[|n]]; [reflexivity | discriminate | lia]. }
        subst n.
        apply (IH _ 1%nat _ _ Hup) in Ht; [exact Ht | lia |].
        simpl. rewrite E. exact Hbusy.
    + (* SendSettle *)
      destruct n as [|n]; [discriminate|].
      assert (n = 0)%nat by lia. subst n.
      apply (IH _ 0%nat _ _ Hup) in Ht; [exact Ht | lia | reflexivity].
Qed.

(** X16: one send at a time.  In every run of the page in which no file
    upload touches [isLoading], at most one [send_message] call is
    awaiting its answer at any moment, and [isLoading] is true exactly
    while one is: a send attempted before the previous answer arrived is
    ignored. *)
Theorem at_most_one_send_in_flight :
  forall (now : Z) (events : list event) (page : Page.t) (pending : nat),
    existsb isUploadLoading events = false ->
    track events (initialPage now) 0 = Some (page, pending) ->
    page = runEvents events (initialPage now)
    /\ (pending <= 1)%nat
    /\ App.isLoading (Page.app page) = (pending =? 1)%nat.
Proof.
  intros now events page pending Hup Ht.
  apply (track_single_flight events (initialPage now) 0%nat page pending Hup);
    [lia | reflexivity | exact Ht].
Qed.

Lemma at_most_one_send_in_flight_witness :
  let events := [Typed (js "one"); SendBegin 1; Typed (js "two"); SendBegin 2;
                 NewChat 3 3] in
  track events (initialPage 0) 0
  = Some (runEvents events (initialPage 0), 1%nat)
  /\ App.isLoading (Page.app (runEvents events (initialPage 0))) = true.
Proof.
  cbv zeta. split; [reflexivity|].
  apply (at_most_one_send_in_flight 0
           [Typed (js "one"); SendBegin 1; Typed (js "two"); SendBegin 2;
            NewChat 3 3] _ 1%nat eq_refl eq_refl).
Defined.

(** X17: a new chat started while an answer is awaited.  If a send has
    gone out and "New Chat" is clicked before the backend answers, the
    question is wiped with the rest of the log, and the answer (or the
    error message) then arrives in the new chat as its only message,
    while the new conversation is the current one. *)
Theorem answer_lands_in_chat_opened_meanwhile :
  forall (t1 t_id t_stamp t2 : Z) (result : settled) (app : App.t),
    isEmpty (trim (App.message app)) = false ->
    App.isLoading app = false ->
    exists (app1 : App.t) (call : Invoke.t),
      handleSendMessage_begin t1 app = Some (app1, call)
      /\ let after :=
           handleSendMessage_settle result t2
             (handleNewChat t_id t_stamp app1) in
         messages (App.store after)
         = [ match result with
             | inl response =>
                 {| Message.role := assistant;
                    Message.content := response;
                    Message.timestamp := t2 |}
             | inr error =>
                 {| Message.role := system;
                    Message.content := js "Error: " ++ error;
                    Message.timestamp := t2 |}
             end ]
         /\ currentConversationId (App.store after) = toString t_id
         /\ App.isLoading after = false.
Proof.
  intros t1 t_id t_stamp t2 result app Hne Hload.
  eexists; eexists. split.
  - apply handleSendMessage_begin_proceeds; assumption.
  - destruct result; repeat split.
Qed.

Lemma answer_lands_in_chat_opened_meanwhile_witness :
  let app := {| App.message := js "question"; App.isLoading := false;
                App.store := initialStore 0 |} in
  exists (app1 : App.t) (call : Invoke.t),
    handleSendMessage_begin 1 app = Some (app1, call)
    /\ map Message.content
         (messages
            (App.store
               (handleSendMessage_settle (inl (js "answer")) 3
                  (handleNewChat 2 2 app1))))
       = [js "answer"].
Proof.
  cbv zeta.
  destruct (answer_lands_in_chat_opened_meanwhile 1 2 2 3 (inl (js "answer"))
              {| App.message := js "question"; App.isLoading := false;
                 App.store := initialStore 0 |} eq_refl eq_refl)
    as (app1 & call & Hb & Hlog & _).
  exists app1, call. split; [exact Hb|]. rewrite Hlog. reflexivity.
Defined.

(** ** Downloads in the model menu *)

Lemma jsstring_eqb_sym a b : jsstring_eqb a b = jsstring_eqb b a.
Proof.
  destruct (jsstring_eqb a b) eqn:E1, (jsstring_eqb b a) eqn:E2; auto.
  - apply jsstring_eqb_eq in E1. subst. now rewrite jsstring_eqb_refl in E2.
  - apply jsstring_eqb_eq in E2. subst. now rewrite jsstring_eqb_refl in E1.
Qed.

(** X18: a download leaves no trace.  With no other download running,
    [handleDownloadModel] shows the pulsing icon on the model's row
    while the backend works (unless that model is the selected one) and,
    once the call settles, puts the menu and the store back exactly as
    they were, whether the download succeeded or failed: nothing records
    that a model has been downloaded, and the row offers the download
    again. *)
Theorem download_leaves_menu_and_store_as_before :
  forall (model : jsstring) (ok : bool) (sel : ModelSelector.t)
         (store : AppStore),
    ModelSelector.downloading sel = None ->
    handleDownloadModel_settle ok
      (handleDownloadModel_begin model (sel, store)) = (sel, store)
    /\ snd (handleDownloadModel_begin model (sel, store)) = store
    /\ rowIconOf model (handleDownloadModel_begin model (sel, store))
       = (if jsstring_eqb (selectedModel store) model then CheckCircle
          else DownloadPulse).
Proof.
  intros model ok [isOpen downloading] store H. simpl in H. subst.
  unfold rowIconOf. simpl. rewrite jsstring_eqb_refl. repeat split.
Qed.

Lemma download_leaves_menu_and_store_as_before_witness :
  let st := ({| ModelSelector.isOpen := true;
                ModelSelector.downloading := None |}, initialStore 0) in
  handleDownloadModel_settle true
    (handleDownloadModel_begin (js "phi-2") st) = st
  /\ rowIconOf (js "phi-2") (handleDownloadModel_begin (js "phi-2") st)
     = DownloadPulse.
Proof.
  cbv zeta.
  destruct (download_leaves_menu_and_store_as_before (js "phi-2") true
              {| ModelSelector.isOpen := true;
                 ModelSelector.downloading := None |} (initialStore 0)
              eq_refl) as (H1 & _ & H3).
  split; [exact H1 | exact H3].
Defined.

(** X19: two downloads share one indicator.  The menu remembers a
    single downloading model.  When a download of [b] starts while [a]
    is still being downloaded (both different from the selected model),
    the row of [a] falls back to the plain download button at once and
    only [b] pulses; and as soon as either call settles, neither row
    pulses, although the other download is still running. *)
Theorem second_download_takes_the_indicator :
  forall (a b : jsstring) (ok : bool) (st : ModelSelector.t * AppStore),
    jsstring_eqb a b = false ->
    jsstring_eqb (selectedModel (snd st)) a = false ->
    jsstring_eqb (selectedModel (snd st)) b = false ->
    let both := handleDownloadModel_begin b (handleDownloadModel_begin a st) in
    rowIconOf a (handleDownloadModel_begin a st) = DownloadPulse
    /\ rowIconOf a both = DownloadButton
    /\ rowIconOf b both = DownloadPulse
    /\ rowIconOf a (handleDownloadModel_settle ok both) = DownloadButton
    /\ rowIconOf b (handleDownloadModel_settle ok both) = DownloadButton.
Proof.
  intros a b ok [sel store] Hab Ha Hb. unfold rowIconOf. simpl in *.
  rewrite Ha, Hb, !jsstring_eqb_refl, (jsstring_eqb_sym b a), Hab.
  repeat split.
Qed.

Lemma second_download_takes_the_indicator_witness :
  let st := ({| ModelSelector.isOpen := true;
                ModelSelector.downloading := None |}, initialStore 0) in
  let both := handleDownloadModel_begin (js "phi-2")
                (handleDownloadModel_begin (js "mistral-7b") st) in
  rowIconOf (js "mistral-7b") both = DownloadButton
  /\ rowIconOf (js "phi-2") both = DownloadPulse.
Proof.
  cbv zeta.
  destruct (second_download_takes_the_indicator (js "mistral-7b") (js "phi-2")
              true
              ({| ModelSelector.isOpen := true;
                  ModelSelector.downloading := None |}, initialStore 0)
              eq_refl eq_refl eq_refl) as (_ & H2 & H3 & _).
  split; [exact H2 | exact H3].
Defined.

(** ** What the patterns of the guard match *)

Lemma Matches_Eps prev w rest : Matches Eps prev w rest <-> w = [].
Proof. split; [inversion 1; reflexivity | intros ->; constructor]. Qed.

Lemma Matches_Class p prev w rest :
  Matches (Class p) prev w rest <-> exists c, w = [c] /\ p c = true.
Proof.
  split.
  - inversion 1; subst. eauto.
  - intros (c & -> & Hc). now constructor.
Qed.

Lemma Matches_WordBoundary prev w rest :
  Matches WordBoundary prev w rest
  <-> w = [] /\ xorb (wordBefore prev) (wordAhead rest) = true.
Proof.
  split.
  - inversion 1; subst. auto.
  - intros (-> & H). now constructor.
Qed.

Lemma Matches_Cat r1 r2 prev w rest :
  Matches (Cat r1 r2) prev w rest
  <-> exists w1 w2, w = w1 ++ w2 /\ Matches r1 prev w1 (w2 ++ rest)
                    /\ Matches r2 (prevAfter prev w1) w2 rest.
Proof.
  split.
  - inversion 1; subst. eauto.
  - intros (w1 & w2 & -> & H1 & H2). now constructor.
Qed.

Lemma Matches_Opt r prev w rest :
  Matches (Opt r) prev w rest <-> w = [] \/ Matches r prev w rest.
Proof.
  split.
  - inversion 1; subst; auto.
  - intros [-> | H]; now constructor.
Qed.

Lemma Matches_Repeat_O r prev w rest :
  Matches (Repeat O r) prev w rest <-> w = [].
Proof. split; [inversion 1; reflexivity | intros ->; constructor]. Qed.

Lemma Matches_Repeat_S n r prev w rest :
  Matches (Repeat (S n) r) prev w rest
  <-> exists w1 w2, w = w1 ++ w2 /\ Matches r prev w1 (w2 ++ rest)
                    /\ Matches (Repeat n r) (prevAfter prev w1) w2 rest.
Proof.
  split.
  - inversion 1; subst. eauto.
  - intros (w1 & w2 & -> & H1 & H2). now constructor.
Qed.

(** Runs of one character class do not look at their context. *)
Lemma Matches_StarClass p w : forall prev rest,
  Matches (StarClass p) prev w rest <-> forallb p w = true.
Proof.
  induction w as [|c w IH]; intros prev rest; simpl.
  - split; [reflexivity | constructor].
  - rewrite andb_true_iff. split.
    + inversion 1; subst. split; [assumption|]. eapply IH; eauto.
    + intros [Hc Hw]. constructor; [assumption|]. now apply IH.
Qed.

Lemma Matches_RepeatClass p n : forall w prev rest,
  Matches (Repeat n (Class p)) prev w rest
  <-> List.length w = n /\ forallb p w = true.
Proof.
  induction n as [|n IH]; intros w prev rest.
  - rewrite Matches_Repeat_O. split.
    + intros ->. auto.
    + intros [H _]. now apply length_zero_iff_nil.
  - rewrite Matches_Repeat_S. split.
    + intros (w1 & w2 & -> & H1 & H2).
      apply Matches_Class in H1. destruct H1 as (c & -> & Hc).
      apply IH in H2. destruct H2 as [Hl Hw]. simpl.
      now rewrite Hl, Hc, Hw.
    + intros [Hl Hw]. destruct w as [|c w]; [discriminate|].
      simpl in Hw. apply andb_true_iff in Hw. destruct Hw as [Hc Hw].
      exists [c], w. repeat split.
      * apply Matches_Class. eauto.
      * apply IH. split; [now injection Hl | assumption].
Qed.

Lemma Matches_plus p w prev rest :
  Matches (plus p) prev w rest <-> w <> [] /\ forallb p w = true.
Proof.
  unfold plus. rewrite Matches_Cat. split.
  - intros (w1 & w2 & -> & H1 & H2).
    apply Matches_Class in H1. destruct H1 as (c & -> & Hc).
    apply Matches_StarClass in H2. simpl. rewrite Hc, H2.
    split; [discriminate | reflexivity].
  - intros [Hne Hw]. destruct w as [|c w]; [congruence|].
    simpl in Hw. apply andb_true_iff in Hw. destruct Hw as [Hc Hw].
    exists [c], w. repeat split.
    + apply Matches_Class. eauto.
    + now apply Matches_StarClass.
Qed.

Lemma Matches_atLeast p n w prev rest :
  Matches (atLeast n p) prev w rest
  <-> (n <= List.length w)%nat /\ forallb p w = true.
Proof.
  unfold atLeast. rewrite Matches_Cat. split.
  - intros (w1 & w2 & -> & H1 & H2).
    apply Matches_RepeatClass in H1. destruct H1 as [Hl H1].
    apply Matches_StarClass in H2.
    rewrite length_app, forallb_app, H1, H2. split; [lia | reflexivity].
  - intros [Hl Hw].
    exists (firstn n w), (skipn n w).
    rewrite <- (firstn_skipn n w) in Hw.
    rewrite forallb_app in Hw. apply andb_true_iff in Hw.
    destruct Hw as [H1 H2]. repeat split.
    + symmetry. apply firstn_skipn.
    + apply Matches_RepeatClass. split; [|assumption].
      rewrite length_firstn. lia.
    + now apply Matches_StarClass.
Qed.

Lemma Matches_seq_cons r rs prev w rest :
  Matches (seq (r :: rs)) prev w rest
  <-> exists w1 w2, w = w1 ++ w2 /\ Matches r prev w1 (w2 ++ rest)
                    /\ Matches (seq rs) (prevAfter prev w1) w2 rest.
Proof. apply Matches_Cat. Qed.

(** A pattern that ends in [\b]: the body matches and the end of the
    word is a boundary. *)
Lemma Matches_seq_closing_boundary body : forall prev w rest,
  Matches (seq (body ++ [WordBoundary])) prev w rest
  <-> Matches (seq body) prev w rest
      /\ xorb (wordBefore (prevAfter prev w)) (wordAhead rest) = true.
Proof.
  induction body as [|r body IH]; intros prev w rest.
  - simpl app. rewrite Matches_seq_cons. simpl seq. rewrite Matches_Eps.
    split.
    + intros (w1 & w2 & -> & H1 & H2).
      apply Matches_WordBoundary in H1. destruct H1 as [-> H1].
      apply Matches_Eps in H2. subst w2. simpl in *. auto.
    + intros (-> & H). exists [], []. repeat split.
      * apply Matches_WordBoundary. auto.
      * apply Matches_Eps. reflexivity.
  - change ((r :: body) ++ [WordBoundary])
      with (r :: (body ++ [WordBoundary])).
    rewrite !Matches_seq_cons. split.
    + intros (w1 & w2 & -> & H1 & H2).
      apply IH in H2. destruct H2 as [H2 Hb].
      rewrite prevAfter_app. split; [|assumption].
      exists w1, w2. auto.
    + intros ((w1 & w2 & -> & H1 & H2) & Hb).
      exists w1, w2. repeat split; auto.
      apply IH. rewrite <- prevAfter_app. auto.
Qed.

(** A pattern between two [\b]. *)
Lemma Matches_anchored body prev w rest :
  Matches (seq (WordBoundary :: body ++ [WordBoundary])) prev w rest
  <-> Matches (seq body) prev w rest
      /\ xorb (wordBefore prev) (wordAhead (w ++ rest)) = true
      /\ xorb (wordBefore (prevAfter prev w)) (wordAhead rest) = true.
Proof.
  rewrite Matches_seq_cons. split.
  - intros (w1 & w2 & -> & H1 & H2).
    apply Matches_WordBoundary in H1. destruct H1 as [-> H1].
    apply Matches_seq_closing_boundary in H2. simpl in *. tauto.
  - intros (H & Hb1 & Hb2). exists [], w. repeat split.
    + apply Matches_WordBoundary. auto.
    + apply Matches_seq_closing_boundary. auto.
Qed.

Lemma test_anchored body text :
  test (seq (WordBoundary :: body ++ [WordBoundary])) text = true
  <-> exists pre w post,
        text = pre ++ w ++ post
        /\ Matches (seq body) (lastOf pre) w post
        /\ betweenBoundaries pre w post.
Proof.
  rewrite test_spec. unfold betweenBoundaries.
  split; intros (pre & w & post & E & H); exists pre, w, post;
    (split; [exact E|]); apply Matches_anchored; exact H.
Qed.

(** Each label is reported exactly when its pattern tests positive. *)
Lemma detect_label text :
  (In "SSN"%string (detect text) <-> test ssnRegex text = true)
  /\ (In "Email"%string (detect text) <-> test emailRegex text = true)
  /\ (In "Phone"%string (detect text) <-> test phoneRegex text = true)
  /\ (In "Credit Card"%string (detect text)
      <-> test creditCardRegex text = true)
  /\ (In "IP Address"%string (detect text)
      <-> test ipAddressRegex text = true).
Proof.
  unfold detect, patterns. cbn [filter Pattern.regex].
  destruct (test ssnRegex text), (test emailRegex text),
    (test phoneRegex text), (test creditCardRegex text),
    (test ipAddressRegex text);
    cbn [map Pattern.type In];
    repeat split; intros; try reflexivity; try discriminate;
    repeat match goal with
           | H : _ \/ _ |- _ => destruct H
           | H : False |- _ => destruct H
           | H : @eq string _ _ |- _ => discriminate H
           end;
    repeat (first [left; reflexivity | right]).
Qed.

Lemma Matches_upTo p n : forall w prev rest,
  Matches (upTo n (Class p)) prev w rest
  <-> (List.length w <= n)%nat /\ forallb p w = true.
Proof.
  induction n as [|n IH]; intros w prev rest; simpl upTo.
  - rewrite Matches_Eps. split.
    + intros ->. auto.
    + intros [H _]. apply length_zero_iff_nil. lia.
  - rewrite Matches_Opt, Matches_Cat. split.
    + intros [-> | (w1 & w2 & -> & H1 & H2)].
      * simpl. split; [lia | reflexivity].
      * apply Matches_Class in H1. destruct H1 as (c & -> & Hc).
        apply IH in H2. destruct H2 as [Hl Hw]. simpl.
        rewrite Hc, Hw. split; [lia | reflexivity].
    + intros [Hl Hw]. destruct w as [|c w]; [now left|]. right.
      simpl in Hw, Hl. apply andb_true_iff in Hw. destruct Hw as [Hc Hw].
      exists [c], w. repeat split.
      * apply Matches_Class. eauto.
      * apply IH. split; [lia | assumption].
Qed.

Lemma Matches_octet w prev rest :
  Matches (between 1 3 digit) prev w rest <-> octet w = true.
Proof.
  unfold between, digit, octet. rewrite Matches_Cat.
  rewrite !andb_true_iff, Nat.leb_le, Nat.leb_le. split.
  - intros (w1 & w2 & -> & H1 & H2).
    apply Matches_RepeatClass in H1. destruct H1 as [Hl H1].
    apply Matches_upTo in H2. destruct H2 as [Hl2 H2]. simpl in Hl2.
    rewrite length_app, forallb_app, H1, H2. repeat split; lia.
  - intros [[Hlo Hhi] Hw].
    exists (firstn 1 w), (skipn 1 w).
    rewrite <- (firstn_skipn 1 w) in Hw.
    rewrite forallb_app in Hw. apply andb_true_iff in Hw.
    destruct Hw as [H1 H2]. repeat split.
    + symmetry. apply firstn_skipn.
    + apply Matches_RepeatClass. split; [|assumption].
      rewrite length_firstn. lia.
    + apply Matches_upTo. split; [|assumption].
      rewrite length_skipn. simpl. lia.
Qed.

Lemma Matches_chr a w prev rest :
  Matches (chr a) prev w rest <-> w = [N_of_ascii a].
Proof.
  unfold chr. rewrite Matches_Class. split.
  - intros (c & -> & Hc). apply N.eqb_eq in Hc. now subst.
  - intros ->. exists (N_of_ascii a). split; [reflexivity | apply N.eqb_refl].
Qed.

(** The body of each pattern, read as a shape of the matched word. *)
Lemma ssnBody_shape w prev rest :
  Matches (seq [Repeat 3 digit; chr "-"; Repeat 2 digit; chr "-";
                Repeat 4 digit]) prev w rest
  <-> ssnShaped w = true.
Proof.
  unfold digit. split.
  - intros H.
    apply Matches_seq_cons in H. destruct H as (w1 & r1 & -> & H1 & H).
    apply Matches_seq_cons in H. destruct H as (w2 & r2 & -> & H2 & H).
    apply Matches_seq_cons in H. destruct H as (w3 & r3 & -> & H3 & H).
    apply Matches_seq_cons in H. destruct H as (w4 & r4 & -> & H4 & H).
    apply Matches_seq_cons in H. destruct H as (w5 & r5 & -> & H5 & H).
    apply Matches_Eps in H. subst r5.
    apply Matches_chr in H2, H4. subst w2 w4.
    apply Matches_RepeatClass in H1, H3, H5.
    destruct H1 as [L1 D1], H3 as [L3 D3], H5 as [L5 D5].
    destruct w1 as [|a [|b [|c [|? ?]]]]; try discriminate L1.
    destruct w3 as [|d [|e [|? ?]]]; try discriminate L3.
    destruct w5 as [|f [|g [|h [|i [|? ?]]]]]; try discriminate L5.
    assert (D : forallb is_digit ([a; b; c] ++ [d; e] ++ [f; g; h; i]) = true)
      by (rewrite !forallb_app, D1, D3, D5; reflexivity).
    change (forallb is_digit [a; b; c; d; e; f; g; h; i] = true) in D.
    change (forallb is_digit [a; b; c; d; e; f; g; h; i]
            && (45 =? 45)%N && (45 =? 45)%N = true).
    rewrite D. reflexivity.
  - intros H.
    destruct (ssnShaped_inv w H)
      as (a & b & c & d & e & f & g & h & i & -> & Hd).
    rewrite Forall_forall in Hd.
    assert (D : forall l, incl l [a; b; c; d; e; f; g; h; i] ->
                          forallb is_digit l = true).
    { intros l Hl. apply forallb_forall. intros x Hx. apply Hd, Hl, Hx. }
    apply Matches_seq_cons. exists [a; b; c], [45; d; e; 45; f; g; h; i]%N.
    split; [reflexivity|]. split.
    { apply Matches_RepeatClass. split; [reflexivity|].
      apply D. intros x Hx. simpl in *. tauto. }
    apply Matches_seq_cons. exists [45%N], [d; e; 45; f; g; h; i]%N.
    split; [reflexivity|]. split; [now apply Matches_chr|].
    apply Matches_seq_cons. exists [d; e], [45; f; g; h; i]%N.
    split; [reflexivity|]. split.
    { apply Matches_RepeatClass. split; [reflexivity|].
      apply D. intros x Hx. simpl in *. tauto. }
    apply Matches_seq_cons. exists [45%N], [f; g; h; i].
    split; [reflexivity|]. split; [now apply Matches_chr|].
    apply Matches_seq_cons. exists [f; g; h; i], [].
    split; [reflexivity|]. split.
    { apply Matches_RepeatClass. split; [reflexivity|].
      apply D. intros x Hx. simpl in *. tauto. }
    now apply Matches_Eps.
Qed.

Lemma ipGroup_shape w prev rest :
  Matches (seq [between 1 3 digit; chr "."]) prev w rest
  <-> exists a, w = a ++ [46%N] /\ octet a = true.
Proof.
  rewrite Matches_seq_cons. split.
  - intros (w1 & r1 & -> & H1 & H).
    apply Matches_octet in H1.
    apply Matches_seq_cons in H. destruct H as (w2 & r2 & -> & H2 & H).
    apply Matches_chr in H2. apply Matches_Eps in H. subst.
    exists w1. rewrite app_nil_r. auto.
  - intros (a & -> & Ha). exists a, [46%N]. split; [reflexivity|]. split.
    + now apply Matches_octet.
    + apply Matches_seq_cons. exists [46%N], []. repeat split.
      * now apply Matches_chr.
      * now apply Matches_Eps.
Qed.

Lemma ipBody_shape w prev rest :
  Matches (seq [Repeat 3 (seq [between 1 3 digit; chr "."]);
                between 1 3 digit]) prev w rest
  <-> ipShaped w.
Proof.
  unfold ipShaped. rewrite Matches_seq_cons. split.
  - intros (w1 & r1 & -> & H1 & H).
    apply Matches_Repeat_S in H1. destruct H1 as (g1 & t1 & -> & G1 & H1).
    apply Matches_Repeat_S in H1. destruct H1 as (g2 & t2 & -> & G2 & H1).
    apply Matches_Repeat_S in H1. destruct H1 as (g3 & t3 & -> & G3 & H1).
    apply Matches_Repeat_O in H1. subst t3.
    apply ipGroup_shape in G1, G2, G3.
    destruct G1 as (a & -> & Ha), G2 as (b & -> & Hb), G3 as (c & -> & Hc).
    apply Matches_seq_cons in H. destruct H as (d & r2 & -> & H2 & H).
    apply Matches_octet in H2. apply Matches_Eps in H. subst r2.
    exists a, b, c, d. repeat split; auto.
    rewrite !app_nil_r, <- !app_assoc. reflexivity.
  - intros (a & b & c & d & -> & Ha & Hb & Hc & Hd).
    exists ((a ++ [46%N]) ++ (b ++ [46%N]) ++ (c ++ [46%N]) ++ []), d.
    split; [rewrite !app_nil_r, <- !app_assoc; reflexivity|]. split.
    + apply Matches_Repeat_S.
      exists (a ++ [46%N]), ((b ++ [46%N]) ++ (c ++ [46%N]) ++ []).
      split; [reflexivity|]. split; [apply ipGroup_shape; eauto|].
      apply Matches_Repeat_S. exists (b ++ [46%N]), ((c ++ [46%N]) ++ []).
      split; [reflexivity|]. split; [apply ipGroup_shape; eauto|].
      apply Matches_Repeat_S. exists (c ++ [46%N]), [].
      split; [reflexivity|]. split; [apply ipGroup_shape; eauto|].
      now apply Matches_Repeat_O.
    + apply Matches_seq_cons. exists d, []. rewrite app_nil_r.
      repeat split; [now apply Matches_octet | now apply Matches_Eps].
Qed.

Lemma cardGroup_shape w prev rest :
  Matches (seq [Repeat 4 digit;
                Opt (Class (fun c => oneOf "-" c || is_space c))])
          prev w rest
  <-> exists g s, w = g ++ s /\ fourDigits g = true
                  /\ cardSeparator s = true.
Proof.
  unfold fourDigits, digit. rewrite Matches_seq_cons. split.
  - intros (g & r1 & -> & H1 & H).
    apply Matches_RepeatClass in H1. destruct H1 as [L D].
    apply Matches_seq_cons in H. destruct H as (s & r2 & -> & H2 & H).
    apply Matches_Eps in H. subst r2.
    exists g, s. rewrite app_nil_r, L, D. repeat split.
    apply Matches_Opt in H2. destruct H2 as [-> | H2]; [reflexivity|].
    apply Matches_Class in H2. destruct H2 as (c & -> & Hc). exact Hc.
  - intros (g & s & -> & Hg & Hs).
    apply andb_true_iff in Hg. destruct Hg as [L D].
    apply Nat.eqb_eq in L.
    exists g, s. split; [reflexivity|]. split.
    + now apply Matches_RepeatClass.
    + apply Matches_seq_cons. exists s, []. rewrite app_nil_r.
      repeat split; [|now apply Matches_Eps].
      apply Matches_Opt. destruct s as [|c [|? ?]]; try discriminate Hs.
      * now left.
      * right. apply Matches_Class. eauto.
Qed.

Lemma cardBody_shape w prev rest :
  Matches (seq [Repeat 3
                  (seq [Repeat 4 digit;
                        Opt (Class (fun c => oneOf "-" c || is_space c))]);
                Repeat 4 digit]) prev w rest
  <-> cardShaped w.
Proof.
  unfold cardShaped. rewrite Matches_seq_cons. split.
  - intros (w1 & r1 & -> & H1 & H).
    apply Matches_Repeat_S in H1. destruct H1 as (c1 & t1 & -> & G1 & H1).
    apply Matches_Repeat_S in H1. destruct H1 as (c2 & t2 & -> & G2 & H1).
    apply Matches_Repeat_S in H1. destruct H1 as (c3 & t3 & -> & G3 & H1).
    apply Matches_Repeat_O in H1. subst t3.
    apply cardGroup_shape in G1, G2, G3.
    destruct G1 as (g1 & s1 & -> & Hg1 & Hs1),
             G2 as (g2 & s2 & -> & Hg2 & Hs2),
             G3 as (g3 & s3 & -> & Hg3 & Hs3).
    apply Matches_seq_cons in H. destruct H as (g4 & r2 & -> & H2 & H).
    apply Matches_Eps in H. subst r2.
    apply Matches_RepeatClass in H2. destruct H2 as [L4 D4].
    exists g1, s1, g2, s2, g3, s3, g4.
    split; [rewrite !app_nil_r, <- !app_assoc; reflexivity|].
    repeat split; auto. unfold fourDigits. now rewrite L4, D4.
  - intros (g1 & s1 & g2 & s2 & g3 & s3 & g4 & -> & Hg1 & Hg2 & Hg3 & Hg4
            & Hs1 & Hs2 & Hs3).
    exists ((g1 ++ s1) ++ (g2 ++ s2) ++ (g3 ++ s3) ++ []), g4.
    split; [rewrite !app_nil_r, <- !app_assoc; reflexivity|]. split.
    + apply Matches_Repeat_S.
      exists (g1 ++ s1), ((g2 ++ s2) ++ (g3 ++ s3) ++ []).
      split; [reflexivity|]. split; [apply cardGroup_shape; eauto|].
      apply Matches_Repeat_S. exists (g2 ++ s2), ((g3 ++ s3) ++ []).
      split; [reflexivity|]. split; [apply cardGroup_shape; eauto|].
      apply Matches_Repeat_S. exists (g3 ++ s3), [].
      split; [reflexivity|]. split; [apply cardGroup_shape; eauto|].
      now apply Matches_Repeat_O.
    + apply Matches_seq_cons. exists g4, []. rewrite app_nil_r.
      repeat split; [|now apply Matches_Eps].
      apply andb_true_iff in Hg4. destruct Hg4 as [L D].
      apply Nat.eqb_eq in L. unfold digit. now apply Matches_RepeatClass.
Qed.

Lemma emailBody_shape w prev rest :
  Matches (seq [plus emailLocal; chr "@"; plus emailDomain; chr ".";
                atLeast 2 emailTld]) prev w rest
  <-> emailShaped w.
Proof.
  unfold emailShaped. split.
  - intros H.
    apply Matches_seq_cons in H. destruct H as (l & r1 & -> & H1 & H).
    apply Matches_seq_cons in H. destruct H as (w2 & r2 & -> & H2 & H).
    apply Matches_seq_cons in H. destruct H as (d & r3 & -> & H3 & H).
    apply Matches_seq_cons in H. destruct H as (w4 & r4 & -> & H4 & H).
    apply Matches_seq_cons in H. destruct H as (t & r5 & -> & H5 & H).
    apply Matches_Eps in H. subst r5.
    apply Matches_chr in H2, H4. subst w2 w4.
    apply Matches_plus in H1, H3. apply Matches_atLeast in H5.
    exists l, d, t. rewrite app_nil_r. tauto.
  - intros (l & d & t & -> & Hl & Dl & Hd & Dd & Ht & Dt).
    apply Matches_seq_cons. exists l, ([64%N] ++ d ++ [46%N] ++ t).
    split; [reflexivity|]. split; [now apply Matches_plus|].
    apply Matches_seq_cons. exists [64%N], (d ++ [46%N] ++ t).
    split; [reflexivity|]. split; [now apply Matches_chr|].
    apply Matches_seq_cons. exists d, ([46%N] ++ t).
    split; [reflexivity|]. split; [now apply Matches_plus|].
    apply Matches_seq_cons. exists [46%N], t.
    split; [reflexivity|]. split; [now apply Matches_chr|].
    apply Matches_seq_cons. exists t, []. rewrite app_nil_r.
    repeat split; [now apply Matches_atLeast | now apply Matches_Eps].
Qed.

Lemma wordAhead_cons a t post : wordAhead ((a :: t) ++ post) = is_word a.
Proof. reflexivity. Qed.

Lemma prevAfter_snoc prev i z : prevAfter prev (i ++ [z]) = Some z.
Proof. now rewrite prevAfter_app. Qed.

(** Around a word that starts and ends with a word character, the two
    boundaries mean: no word character right before, none right
    after. *)
Lemma boundaries_of_word pre w post :
  (exists a t, w = a :: t /\ is_word a = true) ->
  (exists i z, w = i ++ [z] /\ is_word z = true) ->
  betweenBoundaries pre w post
  <-> wordBefore (lastOf pre) = false /\ wordAhead post = false.
Proof.
  intros (a & t & E1 & Ha) (i & z & E2 & Hz). unfold betweenBoundaries.
  assert (H1 : wordAhead (w ++ post) = true)
    by (rewrite E1, wordAhead_cons; exact Ha).
  assert (H2 : wordBefore (prevAfter (lastOf pre) w) = true)
    by (rewrite E2, prevAfter_snoc; exact Hz).
  rewrite H1, H2.
  destruct (wordBefore (lastOf pre)), (wordAhead post); simpl;
    split; intros [? ?]; split; congruence.
Qed.

Lemma digits_ends w :
  w <> [] -> forallb is_digit w = true ->
  (exists a t, w = a :: t /\ is_word a = true)
  /\ (exists i z, w = i ++ [z] /\ is_word z = true).
Proof.
  intros Hne Hd. rewrite forallb_forall in Hd. split.
  - destruct w as [|a t]; [congruence|].
    exists a, t. split; [reflexivity|]. apply digit_is_word, Hd. now left.
  - destruct (exists_last Hne) as (i & z & ->).
    exists i, z. split; [reflexivity|].
    apply digit_is_word, Hd, in_or_app. right. now left.
Qed.

Lemma octet_ends w :
  octet w = true ->
  (exists a t, w = a :: t /\ is_word a = true)
  /\ (exists i z, w = i ++ [z] /\ is_word z = true).
Proof.
  unfold octet. rewrite !andb_true_iff, Nat.leb_le.
  intros [[Hlo _] Hd]. apply digits_ends; [|assumption].
  intros ->. simpl in Hlo. lia.
Qed.

Lemma fourDigits_ends w :
  fourDigits w = true ->
  (exists a t, w = a :: t /\ is_word a = true)
  /\ (exists i z, w = i ++ [z] /\ is_word z = true).
Proof.
  unfold fourDigits. rewrite andb_true_iff, Nat.eqb_eq.
  intros [Hl Hd]. apply digits_ends; [|assumption].
  intros ->. discriminate Hl.
Qed.

Lemma compound_ends (first last_ : jsstring) (middle : jsstring) :
  (exists a t, first = a :: t /\ is_word a = true) ->
  (exists i z, last_ = i ++ [z] /\ is_word z = true) ->
  (exists a t, first ++ middle ++ last_ = a :: t /\ is_word a = true)
  /\ (exists i z, first ++ middle ++ last_ = i ++ [z] /\ is_word z = true).
Proof.
  intros (a & t & -> & Ha) (i & z & -> & Hz). split.
  - exists a, (t ++ middle ++ i ++ [z]). auto.
  - exists ((a :: t) ++ middle ++ i), z. split; [|assumption].
    now rewrite <- !app_assoc.
Qed.

Lemma ssn_ends w :
  ssnShaped w = true ->
  (exists a t, w = a :: t /\ is_word a = true)
  /\ (exists i z, w = i ++ [z] /\ is_word z = true).
Proof.
  intros H.
  destruct (ssnShaped_inv w H)
    as (a & b & c & d & e & f & g & h & i & -> & Hd).
  rewrite Forall_forall in Hd. split.
  - eexists; eexists. split; [reflexivity|].
    apply digit_is_word, Hd. simpl. tauto.
  - exists [a; b; c; 45; d; e; 45; f; g; h]%N, i. split; [reflexivity|].
    apply digit_is_word, Hd. simpl. tauto.
Qed.

(** X20: when "SSN" is reported.  The scan reports "SSN" exactly when
    the text contains three digits, a hyphen, two digits, a hyphen and
    four digits with no letter, digit or underscore right before or
    right after them; nothing else triggers the label, and no such
    occurrence is missed. *)
Theorem ssn_reported_iff :
  forall text : jsstring,
    In "SSN"%string (detect text)
    <-> exists pre w post,
          text = pre ++ w ++ post
          /\ ssnShaped w = true
          /\ wordBefore (lastOf pre) = false
          /\ wordAhead post = false.
Proof.
  intros text. destruct (detect_label text) as (-> & _).
  change ssnRegex
    with (seq (WordBoundary
                 :: [Repeat 3 digit; chr "-"; Repeat 2 digit; chr "-";
                     Repeat 4 digit] ++ [WordBoundary])).
  rewrite test_anchored.
  split; intros (pre & w & post & E & H1 & H2); exists pre, w, post;
    (split; [exact E|]).
  - apply ssnBody_shape in H1. split; [exact H1|].
    destruct (ssn_ends w H1) as [Ha Hz].
    now apply (boundaries_of_word pre w post Ha Hz).
  - destruct H2 as [Hb1 Hb2]. split; [now apply ssnBody_shape|].
    destruct (ssn_ends w H1) as [Ha Hz].
    now apply (boundaries_of_word pre w post Ha Hz).
Qed.

Lemma ip_ends w :
  ipShaped w ->
  (exists a t, w = a :: t /\ is_word a = true)
  /\ (exists i z, w = i ++ [z] /\ is_word z = true).
Proof.
  intros (a & b & c & d & -> & Ha & Hb & Hc & Hd).
  destruct (octet_ends a Ha) as [Hfirst _].
  destruct (octet_ends d Hd) as [_ Hlast].
  replace (a ++ [46%N] ++ b ++ [46%N] ++ c ++ [46%N] ++ d)
    with (a ++ ([46%N] ++ b ++ [46%N] ++ c ++ [46%N]) ++ d)
    by (now rewrite <- !app_assoc).
  now apply compound_ends.
Qed.

(** X21: when "IP Address" is reported.  The scan reports "IP Address"
    exactly when the text contains four groups of one to three digits
    joined by single dots, with no letter, digit or underscore right
    before or right after.  The groups are not checked to be at most
    255, so "999.999.999.999" and a version number such as "1.22.3.444"
    are reported alike. *)
Theorem ip_address_reported_iff :
  forall text : jsstring,
    In "IP Address"%string (detect text)
    <-> exists pre w post,
          text = pre ++ w ++ post
          /\ ipShaped w
          /\ wordBefore (lastOf pre) = false
          /\ wordAhead post = false.
Proof.
  intros text. destruct (detect_label text) as (_ & _ & _ & _ & ->).
  change ipAddressRegex
    with (seq (WordBoundary
                 :: [Repeat 3 (seq [between 1 3 digit; chr "."]);
                     between 1 3 digit] ++ [WordBoundary])).
  rewrite test_anchored.
  split; intros (pre & w & post & E & H1 & H2); exists pre, w, post;
    (split; [exact E|]).
  - apply ipBody_shape in H1. split; [exact H1|].
    destruct (ip_ends w H1) as [Ha Hz].
    now apply (boundaries_of_word pre w post Ha Hz).
  - destruct H2 as [Hb1 Hb2]. split; [now apply ipBody_shape|].
    destruct (ip_ends w H1) as [Ha Hz].
    now apply (boundaries_of_word pre w post Ha Hz).
Qed.

Lemma card_ends w :
  cardShaped w ->
  (exists a t, w = a :: t /\ is_word a = true)
  /\ (exists i z, w = i ++ [z] /\ is_word z = true).
Proof.
  intros (g1 & s1 & g2 & s2 & g3 & s3 & g4 & -> & Hg1 & _ & _ & Hg4 & _).
  destruct (fourDigits_ends g1 Hg1) as [Hfirst _].
  destruct (fourDigits_ends g4 Hg4) as [_ Hlast].
  replace (g1 ++ s1 ++ g2 ++ s2 ++ g3 ++ s3 ++ g4)
    with (g1 ++ (s1 ++ g2 ++ s2 ++ g3 ++ s3) ++ g4)
    by (now rewrite <- !app_assoc).
  now apply compound_ends.
Qed.

(** X22: when "Credit Card" is reported.  The scan reports "Credit
    Card" exactly when the text contains four groups of four digits,
    consecutive groups being adjacent or separated by one hyphen or one
    white-space code unit (the three gaps may differ), with no letter,
    digit or underscore right before or right after.  No checksum is
    involved: any sixteen such digits are reported. *)
Theorem credit_card_reported_iff :
  forall text : jsstring,
    In "Credit Card"%string (detect text)
    <-> exists pre w post,
          text = pre ++ w ++ post
          /\ cardShaped w
          /\ wordBefore (lastOf pre) = false
          /\ wordAhead post = false.
Proof.
  intros text. destruct (detect_label text) as (_ & _ & _ & -> & _).
  change creditCardRegex
    with (seq (WordBoundary
                 :: [Repeat 3
                       (seq [Repeat 4 digit;
                             Opt (Class (fun c => oneOf "-" c
                                                  || is_space c))]);
                     Repeat 4 digit] ++ [WordBoundary])).
  rewrite test_anchored.
  split; intros (pre & w & post & E & H1 & H2); exists pre, w, post;
    (split; [exact E|]).
  - apply cardBody_shape in H1. split; [exact H1|].
    destruct (card_ends w H1) as [Ha Hz].
    now apply (boundaries_of_word pre w post Ha Hz).
  - destruct H2 as [Hb1 Hb2]. split; [now apply cardBody_shape|].
    destruct (card_ends w H1) as [Ha Hz].
    now apply (boundaries_of_word pre w post Ha Hz).
Qed.

(** X23: when "Email" is reported.  The scan reports "Email" exactly
    when the text contains a word  local@domain.tld  standing between
    two word boundaries, where [local] is a non-empty run of letters,
    digits and [._%+-], [domain] a non-empty run of letters, digits, dots
    and hyphens, and [tld] at least two code units that are letters or
    the vertical bar (the class [[A-Z|a-z]] admits it). *)
Theorem email_reported_iff :
  forall text : jsstring,
    In "Email"%string (detect text)
    <-> exists pre w post,
          text = pre ++ w ++ post
          /\ emailShaped w
          /\ betweenBoundaries pre w post.
Proof.
  intros text. destruct (detect_label text) as (_ & -> & _).
  change emailRegex
    with (seq (WordBoundary
                 :: [plus emailLocal; chr "@"; plus emailDomain; chr ".";
                     atLeast 2 emailTld] ++ [WordBoundary])).
  rewrite test_anchored.
  split; intros (pre & w & post & E & H1 & H2); exists pre, w, post;
    (split; [exact E|]); (split; [|exact H2]).
  - exact (proj1 (emailBody_shape w (lastOf pre) post) H1).
  - exact (proj2 (emailBody_shape w (lastOf pre) post) H1).
Qed.

(** ** The guard and the trimmed text *)

Lemma space_not_word c : is_space c = true -> is_word c = false.
Proof.
  intros Hs. destruct (is_word c) eqn:Hw; [exfalso | reflexivity].
  unfold is_space, is_word, is_upper, is_lower, is_digit in *.
  repeat rewrite ?orb_true_iff, ?andb_true_iff, ?N.leb_le, ?N.eqb_eq in Hs.
  repeat rewrite ?orb_true_iff, ?andb_true_iff, ?N.leb_le, ?N.eqb_eq in Hw.
  lia.
Qed.

Lemma word_not_space c : is_word c = true -> is_space c = false.
Proof.
  intros Hw. destruct (is_space c) eqn:Hs; [|reflexivity].
  apply space_not_word in Hs. congruence.
Qed.

Lemma prevAfter_nonempty w : forall p q,
  w <> [] -> prevAfter p w = prevAfter q w.
Proof.
  destruct w as [|c w]; [congruence|]. reflexivity.
Qed.

Lemma wordBefore_prevAfter_same w p q :
  wordBefore p = wordBefore q ->
  wordBefore (prevAfter p w) = wordBefore (prevAfter q w).
Proof.
  intros H. destruct w as [|c w]; [exact H | reflexivity].
Qed.

Lemma wordAhead_app_same w rest rest' :
  wordAhead rest = wordAhead rest' ->
  wordAhead (w ++ rest) = wordAhead (w ++ rest').
Proof.
  intros H. destruct w as [|c w]; [exact H | reflexivity].
Qed.

(** A match depends on its context only through the two facts [\b]
    looks at. *)
Lemma Matches_context r prev w rest :
  Matches r prev w rest ->
  forall prev' rest',
    wordBefore prev = wordBefore prev' ->
    wordAhead rest = wordAhead rest' ->
    Matches r prev' w rest'.
Proof.
  induction 1; intros prev' rest' Hp Hr; try (constructor; assumption).
  - constructor. congruence.
  - constructor.
    + apply IHMatches1; [assumption | now apply wordAhead_app_same].
    + apply IHMatches2; [now apply wordBefore_prevAfter_same | assumption].
  - constructor. now apply IHMatches.
  - constructor.
    + apply IHMatches1; [assumption | now apply wordAhead_app_same].
    + apply IHMatches2; [now apply wordBefore_prevAfter_same | assumption].
  - constructor; [assumption|]. now apply IHMatches.
Qed.

Lemma trimStart_decompose s :
  exists ws, s = ws ++ trimStart s /\ forallb is_space ws = true.
Proof.
  induction s as [|c s (ws & E & H)]; simpl.
  - now exists [].
  - destruct (is_space c) eqn:Hc.
    + exists (c :: ws). simpl. rewrite Hc, H. split; [congruence | reflexivity].
    + now exists [].
Qed.

Lemma forallb_rev {A} (p : A -> bool) l :
  forallb p (rev l) = forallb p l.
Proof.
  induction l as [|x l IH]; [reflexivity|].
  simpl. rewrite forallb_app, IH. simpl.
  rewrite andb_true_r. apply andb_comm.
Qed.

Lemma trimEnd_decompose s :
  exists ws, s = trimEnd s ++ ws /\ forallb is_space ws = true.
Proof.
  unfold trimEnd. destruct (trimStart_decompose (rev s)) as (ws & E & H).
  exists (rev ws). split; [|now rewrite forallb_rev].
  rewrite <- rev_app_distr, <- E. symmetry. apply rev_involutive.
Qed.

Lemma spaces_no_wordBefore ws : forall p,
  forallb is_space ws = true ->
  wordBefore p = false ->
  wordBefore (prevAfter p ws) = false.
Proof.
  induction ws as [|c ws IH]; intros p Hs Hp; [exact Hp|].
  simpl in Hs. apply andb_true_iff in Hs. destruct Hs as [Hc Hs].
  change (prevAfter p (c :: ws)) with (prevAfter (Some c) ws).
  apply IH; [assumption|]. simpl. now apply space_not_word.
Qed.

Lemma spaces_no_wordAhead ws :
  forallb is_space ws = true -> wordAhead ws = false.
Proof.
  destruct ws as [|c ws]; [reflexivity|]. simpl.
  rewrite andb_true_iff. intros [Hc _]. now apply space_not_word.
Qed.

Lemma wordBefore_after_spaces ws pre :
  forallb is_space ws = true ->
  wordBefore (lastOf (ws ++ pre)) = wordBefore (lastOf pre).
Proof.
  intros Hs. unfold lastOf. rewrite prevAfter_app.
  apply wordBefore_prevAfter_same.
  now apply spaces_no_wordBefore.
Qed.

Lemma wordAhead_before_spaces post ws :
  forallb is_space ws = true ->
  wordAhead (post ++ ws) = wordAhead post.
Proof.
  intros Hs. rewrite <- (app_nil_r post) at 2.
  apply wordAhead_app_same. now apply spaces_no_wordAhead.
Qed.

(** Putting white space around a text does not remove any match. *)
Lemma test_padded r ws1 t ws2 :
  forallb is_space ws1 = true ->
  forallb is_space ws2 = true ->
  test r t = true -> test r (ws1 ++ t ++ ws2) = true.
Proof.
  intros H1 H2 Ht. apply test_spec in Ht.
  destruct Ht as (pre & w & post & -> & Hm).
  apply test_spec. exists (ws1 ++ pre), w, (post ++ ws2).
  split; [now rewrite <- !app_assoc|].
  eapply Matches_context; [exact Hm | |].
  - symmetry. now apply wordBefore_after_spaces.
  - symmetry. now apply wordAhead_before_spaces.
Qed.

Lemma trim_decompose s :
  exists ws1 ws2, s = ws1 ++ trim s ++ ws2
                  /\ forallb is_space ws1 = true
                  /\ forallb is_space ws2 = true.
Proof.
  destruct (trimStart_decompose s) as (ws1 & E1 & H1).
  destruct (trimEnd_decompose (trimStart s)) as (ws2 & E2 & H2).
  exists ws1, ws2. unfold trim. rewrite <- E2. auto.
Qed.

Lemma wordAhead_true s :
  wordAhead s = true -> exists c t, s = c :: t /\ is_word c = true.
Proof. destruct s as [|c t]; [discriminate | eauto]. Qed.

Lemma wordBefore_lastOf_true s :
  wordBefore (lastOf s) = true -> exists i z, s = i ++ [z] /\ is_word z = true.
Proof.
  destruct s as [|c s] using rev_ind; [discriminate|].
  unfold lastOf. rewrite prevAfter_snoc. eauto.
Qed.

Lemma xorb_true_cases a b :
  xorb a b = true -> (a = false -> b = true) /\ (b = false -> a = true).
Proof. destruct a, b; simpl; intros; split; congruence. Qed.

(** A match that starts at a word boundary survives trimming at the
    front ... *)
Lemma trimStart_keeps_match w post : forall pre,
  xorb (wordBefore (lastOf pre)) (wordAhead (w ++ post)) = true ->
  exists pre',
    trimStart (pre ++ w ++ post) = pre' ++ w ++ post
    /\ wordBefore (lastOf pre') = wordBefore (lastOf pre).
Proof.
  induction pre as [|c pre IH]; intros Hb.
  - exists []. split; [|reflexivity]. simpl app.
    apply xorb_true_cases in Hb. destruct Hb as [Hb _].
    destruct (wordAhead_true _ (Hb eq_refl)) as (x & t & E & Hx).
    rewrite E. simpl. now rewrite (word_not_space x Hx).
  - simpl. destruct (is_space c) eqn:Hc.
    + assert (Hsame : wordBefore (lastOf (c :: pre))
                      = wordBefore (lastOf pre)).
      { apply (wordBefore_after_spaces [c] pre). simpl. now rewrite Hc. }
      rewrite Hsame in Hb. destruct (IH Hb) as (pre' & E & H).
      exists pre'. split; [exact E | congruence].
    + exists (c :: pre). auto.
Qed.

Lemma trimEnd_snoc s c :
  trimEnd (s ++ [c]) = if is_space c then trimEnd s else s ++ [c].
Proof.
  unfold trimEnd. rewrite rev_app_distr. simpl.
  destruct (is_space c); [reflexivity|].
  simpl. now rewrite rev_involutive.
Qed.

(** ... and one that ends at a word boundary survives trimming at the
    back. *)
Lemma trimEnd_keeps_match pre w : forall post,
  xorb (wordBefore (prevAfter (lastOf pre) w)) (wordAhead post) = true ->
  exists post',
    trimEnd (pre ++ w ++ post) = pre ++ w ++ post'
    /\ wordAhead post' = wordAhead post.
Proof.
  induction post as [|c post IH] using rev_ind; intros Hb.
  - exists []. split; [|reflexivity]. rewrite app_nil_r.
    apply xorb_true_cases in Hb. destruct Hb as [_ Hb].
    specialize (Hb eq_refl). unfold lastOf in Hb.
    rewrite <- prevAfter_app in Hb.
    destruct (wordBefore_lastOf_true _ Hb) as (i & z & E & Hz).
    rewrite E, trimEnd_snoc. now rewrite (word_not_space z Hz).
  - replace (pre ++ w ++ post ++ [c]) with ((pre ++ w ++ post) ++ [c])
      by (now rewrite <- !app_assoc).
    rewrite trimEnd_snoc. destruct (is_space c) eqn:Hc.
    + assert (Hsame : wordAhead (post ++ [c]) = wordAhead post).
      { apply wordAhead_before_spaces. simpl. now rewrite Hc. }
      rewrite Hsame in Hb. destruct (IH Hb) as (post' & E & H).
      exists post'. split; [exact E | congruence].
    + exists (post ++ [c]). split; [now rewrite <- !app_assoc | reflexivity].
Qed.

Lemma test_anchored_trim body text :
  test (seq (WordBoundary :: body ++ [WordBoundary])) (trim text)
  = test (seq (WordBoundary :: body ++ [WordBoundary])) text.
Proof.
  set (r := seq (WordBoundary :: body ++ [WordBoundary])).
  destruct (test r text) eqn:Hfull.
  - apply test_anchored in Hfull.
    destruct Hfull as (pre & w & post & -> & Hm & Hb1 & Hb2).
    destruct (trimStart_keeps_match w post pre Hb1) as (pre' & E1 & Hpre).
    assert (Hb2' : xorb (wordBefore (prevAfter (lastOf pre') w))
                        (wordAhead post) = true).
    { rewrite (wordBefore_prevAfter_same w _ _ Hpre). exact Hb2. }
    destruct (trimEnd_keeps_match pre' w post Hb2') as (post' & E2 & Hpost).
    apply test_anchored. exists pre', w, post'.
    split; [unfold trim; now rewrite E1, E2|]. split.
    + eapply Matches_context; [exact Hm | now symmetry | now symmetry].
    + split.
      * rewrite Hpre, (wordAhead_app_same w _ _ Hpost). exact Hb1.
      * rewrite Hpost. exact Hb2'.
  - destruct (test r (trim text)) eqn:Htrim; [|reflexivity].
    destruct (trim_decompose text) as (ws1 & ws2 & E & H1 & H2).
    rewrite E, (test_padded r ws1 (trim text) ws2 H1 H2 Htrim) in Hfull.
    discriminate.
Qed.

(** The scan reports the same labels on the trimmed text as on the text
    as typed. *)
Lemma detect_trim text : detect (trim text) = detect text.
Proof.
  unfold detect, patterns. cbn [filter Pattern.regex].
  change ssnRegex
    with (seq (WordBoundary
                 :: [Repeat 3 digit; chr "-"; Repeat 2 digit; chr "-";
                     Repeat 4 digit] ++ [WordBoundary])).
  change emailRegex
    with (seq (WordBoundary
                 :: [plus emailLocal; chr "@"; plus emailDomain; chr ".";
                     atLeast 2 emailTld] ++ [WordBoundary])).
  change phoneRegex
    with (seq (WordBoundary
                 :: [Opt (seq [Opt (chr "+"); chr "1"; Opt phoneSeparator]);
                     Opt (chr "("); Repeat 3 digit; Opt (chr ")");
                     Opt phoneSeparator; Repeat 3 digit;
                     Opt phoneSeparator; Repeat 4 digit]
                    ++ [WordBoundary])).
  change creditCardRegex
    with (seq (WordBoundary
                 :: [Repeat 3
                       (seq [Repeat 4 digit;
                             Opt (Class (fun c => oneOf "-" c
                                                  || is_space c))]);
                     Repeat 4 digit] ++ [WordBoundary])).
  change ipAddressRegex
    with (seq (WordBoundary
                 :: [Repeat 3 (seq [between 1 3 digit; chr "."]);
                     between 1 3 digit] ++ [WordBoundary])).
  rewrite !test_anchored_trim. reflexivity.
Qed.

(** X24: the guard sees the same on the typed text and on the text that
    is sent.  For every input, the labels the scan reports on the input
    as typed are the labels it reports on the trimmed input, which is
    what [handleSendMessage] stores and sends: white space around the
    text neither hides nor creates a finding. *)
Theorem detect_ignores_surrounding_white_space :
  forall text : jsstring,
    detect (trim text) = detect text
    /\ PIIGuard_effect (trim text) = PIIGuard_effect text.
Proof.
  intros text. split; [apply detect_trim|].
  unfold PIIGuard_effect. now rewrite detect_trim.
Qed.

(** ** What a clean input is sent as *)

Lemma trimStart_clean s : startsWithSpace (trimStart s) = false.
Proof.
  induction s as [|c s IH]; [reflexivity|].
  simpl. destruct (is_space c) eqn:Hc; [exact IH|].
  simpl. exact Hc.
Qed.

Lemma trimStart_id s : startsWithSpace s = false -> trimStart s = s.
Proof.
  destruct s as [|c s]; [reflexivity|]. simpl. now intros ->.
Qed.

Lemma trimEnd_clean s : endsWithSpace (trimEnd s) = false.
Proof.
  unfold endsWithSpace, trimEnd. rewrite rev_involutive.
  apply trimStart_clean.
Qed.

Lemma trimEnd_id s : endsWithSpace s = false -> trimEnd s = s.
Proof.
  unfold endsWithSpace, trimEnd. intros H.
  rewrite (trimStart_id _ H). apply rev_involutive.
Qed.

Lemma trimEnd_keeps_start s :
  startsWithSpace s = false -> startsWithSpace (trimEnd s) = false.
Proof.
  intros H. destruct (trimEnd_decompose s) as (ws & E & _).
  destruct (trimEnd s) as [|c t]; [reflexivity|].
  rewrite E in H. exact H.
Qed.

Lemma trim_clean s :
  startsWithSpace (trim s) = false /\ endsWithSpace (trim s) = false.
Proof.
  unfold trim. split.
  - apply trimEnd_keeps_start, trimStart_clean.
  - apply trimEnd_clean.
Qed.

Lemma trim_id_iff s :
  trim s = s <-> startsWithSpace s = false /\ endsWithSpace s = false.
Proof.
  split.
  - intros E. rewrite <- E. apply trim_clean.
  - intros [H1 H2]. unfold trim. rewrite (trimStart_id _ H1).
    now apply trimEnd_id.
Qed.

(** C2: what a clean input is sent as.  The page has no operation that
    rewrites a text it found clean; the one change between the input box
    and the backend is [trim].  For every input on which the scan finds
    nothing, a send that is not blocked hands the backend, and stores in
    the log, the input with the white space at its two ends removed and
    every other code unit kept in place; the text sent has no finding
    either, and it is the input itself, code unit for code unit, exactly
    when the input neither begins nor ends with white space. *)
Theorem clean_text_is_sent_trimmed :
  forall (now : Z) (app : App.t),
    let text := App.message app in
    detect text = [] ->
    isEmpty (trim text) = false ->
    App.isLoading app = false ->
    exists (app1 : App.t) (call : Invoke.t) (ws1 ws2 : jsstring),
      handleSendMessage_begin now app = Some (app1, call)
      /\ text = ws1 ++ Invoke.message call ++ ws2
      /\ forallb is_space ws1 = true
      /\ forallb is_space ws2 = true
      /\ startsWithSpace (Invoke.message call) = false
      /\ endsWithSpace (Invoke.message call) = false
      /\ (Invoke.message call = text
          <-> startsWithSpace text = false /\ endsWithSpace text = false)
      /\ detect (Invoke.message call) = []
      /\ PIIGuard_effect (Invoke.message call) = ([], onPIICleared)
      /\ messages (App.store app1)
         = messages (App.store app)
           ++ [ {| Message.role := user;
                   Message.content := Invoke.message call;
                   Message.timestamp := now |} ].
Proof.
  intros now app text Hclean Hne Hload.
  destruct (trim_decompose text) as (ws1 & ws2 & E & H1 & H2).
  destruct (trim_clean text) as [Hs He].
  assert (Hsent : detect (trim text) = []).
  { rewrite detect_trim. exact Hclean. }
  eexists; eexists; exists ws1, ws2. split.
  - apply handleSendMessage_begin_proceeds; assumption.
  - cbn [Invoke.message App.store]. fold text.
    split; [exact E|]. split; [exact H1|]. split; [exact H2|].
    split; [exact Hs|]. split; [exact He|].
    split; [apply trim_id_iff|]. split; [exact Hsent|].
    split; [unfold PIIGuard_effect; now rewrite Hsent|].
    reflexivity.
Qed.

Lemma clean_text_is_sent_trimmed_witness :
  let app := {| App.message := js "  hello there "; App.isLoading := false;
                App.store := initialStore 0 |} in
  detect (App.message app) = []
  /\ exists (app1 : App.t) (call : Invoke.t),
       handleSendMessage_begin 7 app = Some (app1, call)
       /\ Invoke.message call = js "hello there"
       /\ detect (Invoke.message call) = []
       /\ messages (App.store app1)
          = [ {| Message.role := user; Message.content := js "hello there";
                 Message.timestamp := 7 |} ].
Proof.
  split; [reflexivity|].
  destruct (clean_text_is_sent_trimmed 7
              {| App.message := js "  hello there "; App.isLoading := false;
                 App.store := initialStore 0 |} eq_refl eq_refl eq_refl)
    as (app1 & call & ws1 & ws2 & Hsend & _ & _ & _ & _ & _ & _ & Hd & _ & Hlog).
  exists app1, call.
  assert (Hcall : Invoke.message call = js "hello there").
  { vm_compute in Hsend. now injection Hsend as _ <-. }
  split; [exact Hsend|]. split; [exact Hcall|]. split; [exact Hd|].
  rewrite Hlog, Hcall. reflexivity.
Defined.

(** C2, counterexample to the specified behaviour: the scan finds
    nothing in " hi ", yet the text the backend receives and the log
    stores is "hi", two code units shorter than the input; and the blank
    input "   ", clean as well, is not sent at all. *)
Lemma padded_clean_text_is_not_sent_as_typed :
  let text := js " hi " in
  let app := {| App.message := text; App.isLoading := false;
                App.store := initialStore 0 |} in
  let done := handleSendMessage (fun _ => inl (js "ok")) 1 2 app in
  detect text = []
  /\ snd done = [ {| Invoke.message := js "hi";
                     Invoke.modelName := js "llama2-7b" |} ]
  /\ map Message.content (messages (App.store (fst done)))
     = [js "hi"; js "ok"]
  /\ jsstring_eqb (js "hi") text = false
  /\ detect (js "   ") = []
  /\ snd (handleSendMessage (fun _ => inl (js "ok")) 1 2
            {| App.message := js "   "; App.isLoading := false;
               App.store := initialStore 0 |}) = [].
Proof. vm_compute. repeat split. Qed.

(** ** Status colours, once more *)

(** X25: the colour never improves when the reading gets worse.  For
    every threshold and every two readings ordered by [<=] as the engine
    compares numbers, the larger reading gets a colour at least as severe
    (green, then yellow, then red) as the smaller one. *)
Theorem status_severity_grows_with_the_reading :
  forall v1 v2 threshold : float,
    (v1 <=? v2)%float = true ->
    (severity (getStatusColor v1 threshold)
     <= severity (getStatusColor v2 threshold))%nat.
Proof.
  intros v1 v2 t H. unfold getStatusColor.
  pose proof (leb_ltb_trans v1 v2 (t * binary64_0_6)%float H) as L.
  pose proof (leb_ltb_trans v1 v2 (t * binary64_0_8)%float H) as U.
  destruct (v2 <? t * binary64_0_6)%float.
  - rewrite (L eq_refl). apply le_n.
  - destruct (v2 <? t * binary64_0_8)%float.
    + rewrite (U eq_refl).
      destruct (v1 <? t * binary64_0_6)%float; unfold severity; simpl; lia.
    + destruct (v1 <? t * binary64_0_6)%float;
        [|destruct (v1 <? t * binary64_0_8)%float];
        unfold severity; simpl; lia.
Qed.

Lemma status_severity_grows_with_the_reading_witness :
  (40 <=? 60)%float = true
  /\ (severity (getStatusColor 40 85) <= severity (getStatusColor 60 85))%nat.
Proof.
  split; [reflexivity|].
  apply (status_severity_grows_with_the_reading 40 60 85). reflexivity.
Defined.

(** ** The drop zone *)

Lemma dropZoneRun_from {File : Type} (events : list (dropZoneEvent File)) :
  forall st,
    FileUpload.uploadStatus
      (fst (fold_left (fun st e => dropZoneStep e st) events st))
    = FileUpload.uploadStatus (fst st)
    /\ snd (fold_left (fun st e => dropZoneStep e st) events st)
       = snd st ++ flat_map filesSelected events.
Proof.
  induction events as [|e events IH]; intros [st files]; simpl.
  - now rewrite app_nil_r.
  - destruct (IH (dropZoneStep e (st, files))) as [H1 H2].
    rewrite H1, H2. destruct e as [type|fs|fs]; simpl.
    + split; [|reflexivity]. unfold handleDrag.
      destruct (String.eqb type "dragenter" || String.eqb type "dragover");
        [reflexivity|].
      destruct (String.eqb type "dragleave"); reflexivity.
    + now rewrite <- app_assoc.
    + now rewrite <- app_assoc.
Qed.

(** X26: the drop zone.  Through any sequence of drag, drop and
    file-input events, [uploadStatus] stays 'idle' (nothing ever sets
    it), so the icon is the spinner while [isProcessing] and the upload
    arrow otherwise, never the success or error mark; each drop or
    selection hands [onFileSelect] the first file of its list and
    ignores the others, an empty list handing over nothing; and a drop
    always switches the drag highlight off. *)
Theorem drop_zone_never_shows_an_outcome :
  forall (File : Type) (events : list (dropZoneEvent File))
         (isProcessing : bool) (files : list File),
    FileUpload.uploadStatus (fst (dropZoneRun events)) = FileUpload.idle
    /\ dropZoneIconOf isProcessing (fst (dropZoneRun events))
       = (if isProcessing then Spinner else UploadArrow)
    /\ snd (dropZoneRun events) = flat_map filesSelected events
    /\ (List.length (snd (dropZoneRun events)) <= List.length events)%nat
    /\ FileUpload.dragActive (fst (dropZoneRun (events ++ [Drop files])))
       = false.
Proof.
  intros File events isProcessing files. unfold dropZoneRun.
  destruct (dropZoneRun_from events (initialFileUpload, [])) as [H1 H2].
  split; [exact H1|]. split.
  { unfold dropZoneIconOf. rewrite H1. reflexivity. }
  split; [exact H2|]. split.
  { rewrite H2. simpl. clear.
    induction events as [|e events IH]; simpl; [lia|].
    rewrite length_app.
    assert (List.length (filesSelected e) <= 1)%nat
      by (destruct e as [?|[|? ?]|[|? ?]]; simpl; lia).
    lia. }
  rewrite fold_left_app. reflexivity.
Qed.

(** ** Code blocks *)

Lemma takeWhile_spec p s :
  exists rest, s = takeWhile p s ++ rest
               /\ forallb p (takeWhile p s) = true
               /\ match rest with c :: _ => p c = false | [] => True end.
Proof.
  induction s as [|c s (rest & E & H & Hr)]; simpl.
  - now exists [].
  - destruct (p c) eqn:Hc.
    + exists rest. simpl. rewrite Hc, H. split; [congruence | auto].
    + exists (c :: s). auto.
Qed.

Lemma takeWhile_app p w rest :
  forallb p w = true ->
  match rest with c :: _ => p c = false | [] => True end ->
  takeWhile p (w ++ rest) = w.
Proof.
  intros Hw Hr. induction w as [|c w IH]; simpl in *.
  - destruct rest as [|c rest]; [reflexivity|]. simpl. now rewrite Hr.
  - apply andb_true_iff in Hw. destruct Hw as [Hc Hw].
    now rewrite Hc, IH.
Qed.

Lemma execLanguage_unfold className :
  execLanguage className
  = match (if startsWith (js "language-") className
           then takeWhile is_word (skipn 9 className) else []) with
    | c :: w => Some (c :: w)
    | [] => match className with
            | _ :: rest => execLanguage rest
            | [] => None
            end
    end.
Proof.
  destruct className as [|x cn]; [reflexivity|].
  cbn [execLanguage]. cbv zeta.
  destruct (if startsWith (js "language-") (x :: cn)
            then takeWhile is_word (skipn 9 (x :: cn)) else []);
    reflexivity.
Qed.

Lemma execLanguage_sound className : forall lang,
  execLanguage className = Some lang ->
  lang <> []
  /\ forallb is_word lang = true
  /\ includes className (js "language-" ++ lang) = true.
Proof.
  induction className as [|c cn IH]; intros lang; rewrite execLanguage_unfold.
  - simpl. discriminate.
  - destruct (startsWith (js "language-") (c :: cn)) eqn:Hs.
    + destruct (takeWhile is_word (skipn 9 (c :: cn))) as [|x w] eqn:Ht.
      * intros H. destruct (IH lang H) as (H1 & H2 & H3).
        repeat split; auto. rewrite includes_unfold, H3. apply orb_true_r.
      * intros [= <-].
        apply startsWith_spec in Hs. destruct Hs as (rest & Hs).
        assert (Hrest : skipn 9 (c :: cn) = rest).
        { rewrite Hs. reflexivity. }
        rewrite Hrest in Ht.
        destruct (takeWhile_spec is_word rest) as (rest' & E & Hw & _).
        rewrite Ht in E, Hw.
        split; [discriminate|]. split; [exact Hw|].
        apply includes_spec. exists [], rest'.
        rewrite Hs, E. cbn [app]. rewrite <- app_assoc. reflexivity.
    + intros H. destruct (IH lang H) as (H1 & H2 & H3).
      repeat split; auto. rewrite includes_unfold, H3. apply orb_true_r.
Qed.

(** X27: the language of a code block.  The [code] renderer reads the
    language off the class name: for a class name "language-" followed
    by a non-empty run of word characters that ends the name or is
    followed by another character, the highlighter gets exactly that run;
    whatever class name is given, a language that is found is non-empty,
    made of word characters and preceded by "language-" in the class
    name; an inline block or a missing class name is never
    highlighted. *)
Theorem code_block_language :
  forall (lang rest : jsstring),
    lang <> [] ->
    forallb is_word lang = true ->
    wordAhead rest = false ->
    highlightedAs false (Some (js "language-" ++ lang ++ rest)) = Some lang
    /\ (forall className found,
          highlightedAs false (Some className) = Some found ->
          found <> [] /\ forallb is_word found = true
          /\ includes className (js "language-" ++ found) = true)
    /\ (forall className, highlightedAs true className = None)
    /\ highlightedAs false None = None.
Proof.
  intros lang rest Hne Hw Hrest.
  split; [|split; [|split; reflexivity]].
  - unfold highlightedAs. rewrite execLanguage_unfold.
    rewrite startsWith_app.
    change (skipn 9 (js "language-" ++ lang ++ rest)) with (lang ++ rest).
    rewrite takeWhile_app; [destruct lang; [congruence | reflexivity] | exact Hw |].
    destruct rest; [exact I | exact Hrest].
  - intros className found. apply execLanguage_sound.
Qed.

Lemma code_block_language_witness :
  highlightedAs false (Some (js "language-python hljs")) = Some (js "python").
Proof.
  apply (code_block_language (js "python") (js " hljs"));
    [discriminate | reflexivity | reflexivity].
Defined.

(** The final newline of a code block.  Before highlighting, one
    line feed at the very end of the code is removed and nothing else:
    [s] followed by a line feed gives [s] (so of two final line feeds one
    remains), and code ending in any other code unit, or empty code, is
    left as it is. *)
Theorem stripFinalNewline_removes_one_line_feed :
  forall (s : jsstring) (c : code_unit),
    stripFinalNewline (s ++ [10%N]) = s
    /\ (c <> 10%N -> stripFinalNewline (s ++ [c]) = s ++ [c])
    /\ stripFinalNewline [] = []
    /\ stripFinalNewline (s ++ [10; 10]%N) = s ++ [10%N].
Proof.
  intros s c. unfold stripFinalNewline. repeat split.
  - rewrite rev_app_distr. simpl. apply rev_involutive.
  - intros Hc. rewrite rev_app_distr. simpl.
    apply N.eqb_neq in Hc. now rewrite Hc.
  - replace (s ++ [10; 10]%N) with ((s ++ [10%N]) ++ [10%N])
      by (now rewrite <- app_assoc).
    rewrite rev_app_distr. simpl. apply rev_involutive.
Qed.
